(** * Post-processing of amplitude-estimation histograms

    A shallow embedding of the classical post-processing cells of the
    Quantum notebooks: the dense fill of the measured probabilities, the
    estimator grid [sin^2(i*pi/2^m)], the folding of the two states that
    share an estimator value, the arg-max read-out, the affine map back to
    function values, and the normalisation of noisy results.

    Python floats are modelled by the real numbers [R]: sums and products
    are exact, [np.sin] is [sin], [np.pi] is [PI].  Python exceptions are
    modelled by the result type [Py]. *)

From Stdlib Require Import Reals Lra Lia ZArith.
From stdpp Require Import base list.
From Equations Require Import Equations.

Open Scope R_scope.

(** ** Python outcomes *)

Inductive PyExn : Set :=
| IndexError
| TypeError
| ZeroDivisionError
| ValueError.

Inductive Py (A : Type) : Type :=
| Ret (a : A)
| Raise (e : PyExn).

Arguments Ret {A} & a.
Arguments Raise {A} e.

#[global] Instance Py_ret : MRet Py := @Ret.
#[global] Instance Py_bind : MBind Py :=
  fun A B f x => match x with Ret a => f a | Raise e => Raise e end.

(** ** Samples and array primitives *)

(** One entry of a simulator result: [sample.state.int] and
    [sample.probability]. *)
Record Sample : Type := mkSample { state_int : nat; probability : R }.

(** [arr[i]] on an array: an index past the end raises. *)
Definition getitem (arr : list R) (i : nat) : Py R :=
  match arr !! i with
  | Some x => Ret x
  | None => Raise IndexError
  end.

(** [arr[i] = v] on an array: an index past the end raises. *)
Definition setitem (arr : list R) (i : nat) (v : R) : Py (list R) :=
  if decide (i < length arr)%nat then Ret (<[i:=v]> arr) else Raise IndexError.

(** [a / b] on Python floats. *)
Definition truediv (a b : R) : Py R :=
  if Req_dec_T b 0 then Raise ZeroDivisionError else Ret (a / b).

(** ** numpy scalars

    A [numpy.float64] is a number, [inf], [-inf] or [nan].  Its arithmetic
    raises nothing: a division by zero gives [inf], [-inf] or [nan] and a
    RuntimeWarning.  A Python float or int met by a [numpy.float64] is
    converted to one, which is the coercion [Finite].  Reals carry no sign
    of zero: a zero stands for [0.0]. *)
Inductive float64 : Type :=
| Finite (r : R)
| Inf (negative : bool)
| NaN.

Coercion Finite : R >-> float64.

Definition signbit (r : R) : bool := if Rlt_dec r 0 then true else false.

(** [x + y] *)
Definition f64_add (x y : float64) : float64 :=
  match x, y with
  | NaN, _ | _, NaN => NaN
  | Finite a, Finite b => Finite (a + b)
  | Inf s, Finite _ | Finite _, Inf s => Inf s
  | Inf s, Inf t => if Bool.eqb s t then Inf s else NaN
  end.

(** [x - y] *)
Definition f64_sub (x y : float64) : float64 :=
  match x, y with
  | NaN, _ | _, NaN => NaN
  | Finite a, Finite b => Finite (a - b)
  | Inf s, Finite _ => Inf s
  | Finite _, Inf s => Inf (negb s)
  | Inf s, Inf t => if Bool.eqb s t then NaN else Inf s
  end.

(** [x * y] *)
Definition f64_mul (x y : float64) : float64 :=
  match x, y with
  | NaN, _ | _, NaN => NaN
  | Finite a, Finite b => Finite (a * b)
  | Inf s, Finite b | Finite b, Inf s =>
      if Req_dec_T b 0 then NaN else Inf (xorb s (signbit b))
  | Inf s, Inf t => Inf (xorb s t)
  end.

(** [x / y] *)
Definition f64_truediv (x y : float64) : float64 :=
  match x, y with
  | NaN, _ | _, NaN => NaN
  | Finite a, Finite b =>
      if Req_dec_T b 0
      then (if Req_dec_T a 0 then NaN else Inf (signbit a))
      else Finite (a / b)
  | Finite _, Inf _ => Finite 0
  | Inf s, Finite b => Inf (xorb s (signbit b))
  | Inf _, Inf _ => NaN
  end.

(** Python's builtin [sum]: a left fold starting from 0. *)
Definition sum (l : list R) : R := fold_left Rplus l 0.

(** [np.zeros(n)]. *)
Definition np_zeros (n : nat) : list R := replicate n 0.

(** ** Dense fill

    [all_probs = np.zeros(2**nb_eval_qbits)]
    [for sample in result: all_probs[sample.state.int] = sample.probability] *)

Fixpoint fill (arr : list R) (result : list Sample) : Py (list R) :=
  match result with
  | [] => Ret arr
  | sample :: rest =>
      arr' ← setitem arr (state_int sample) (probability sample);
      fill arr' rest
  end.

Definition all_probs (m : nat) (result : list Sample) : Py (list R) :=
  fill (np_zeros (2 ^ m)) result.

(** ** Estimator grid *)

(** [np.sin(i*np.pi/(2**m))**2] *)
Definition a_tilde (m i : nat) : R := sin (INR i * PI / 2 ^ m) ^ 2.

(** [a_tildes = [np.sin(i*np.pi/(2**m))**2 for i in range(2**(m-1)+1)]] *)
Definition a_tildes (m : nat) : list R :=
  map (a_tilde m) (seq 0 (2 ^ (m - 1) + 1)).

(** [np.rint]: nearest integer, halves go to the even neighbour. *)
Definition rint (x : R) : R :=
  let n := Int_part x in
  let d := x - IZR n in
  if Rlt_dec d (1 / 2) then IZR n
  else if Rlt_dec (1 / 2) d then IZR (n + 1)
  else if Z.even n then IZR n else IZR (n + 1).

(** [np.round(x, decimals)]: scale, [rint], scale back. *)
Definition np_round (x : R) (decimals : nat) : R :=
  rint (x * 10 ^ decimals) / 10 ^ decimals.

(** [p_tilde = [np.round(np.sin(i*np.pi/(2**m))**2,3) for i in range(2**(m-1)+1)]] *)
Definition p_tilde (m : nat) : list R :=
  map (fun i => np_round (a_tilde m i) 3) (seq 0 (2 ^ (m - 1) + 1)).

(** ** Folding

    [probs = []]
    [probs.append(all_probs[0])]
    [i = 1]
    [while i < 2**m/2:]
    [    probs.append(all_probs[i] + all_probs[2**m-i])]
    [    i += 1]
    [probs.append(all_probs[2**(m-1)])]

    [M] stands for [2**m]; the test [i < M/2] on a float quotient is the
    integer test [2*i < M]. *)

Equations? fold_while (arr : list R) (M : nat) (i : nat) (probs : list R)
  : Py (list R) by wf (M - 2 * i)%nat lt :=
  fold_while arr M i probs with decide (2 * i < M)%nat => {
    | left _ :=
        a ← getitem arr i;
        b ← getitem arr (M - i);
        fold_while arr M (S i) (probs ++ [a + b]);
    | right _ := Ret probs }.
Proof. lia. Qed.

Definition probs (m : nat) (arr : list R) : Py (list R) :=
  p0 ← getitem arr 0;
  folded ← fold_while arr (2 ^ m) 1 [p0];
  pmid ← getitem arr (2 ^ (m - 1));
  Ret (folded ++ [pmid]).

(** The T-bill notebook runs the same loop under other names: its dense
    array is [probs] and its folded list is [freqs]. *)
Definition freqs (m : nat) (dense : list R) : Py (list R) := probs m dense.

(** What the loop computes, in closed form: the value appended at index
    [k], and the whole folded list. *)
Definition pair_at (arr : list R) (M k : nat) : R :=
  nth k arr 0 + nth (M - k) arr 0.

Definition folded_bins (m : nat) (arr : list R) : list R :=
  [nth 0 arr 0]
  ++ map (pair_at arr (2 ^ m)) (seq 1 (2 ^ (m - 1) - 1))
  ++ [nth (2 ^ (m - 1)) arr 0].

(** ** Arg-max read-out *)

(** [np.argmax]: the index of the first occurrence of the maximum; an
    empty sequence raises. *)
Fixpoint argmax_from (best : nat) (vbest : R) (i : nat) (l : list R) : nat :=
  match l with
  | [] => best
  | x :: rest =>
      if Rlt_dec vbest x then argmax_from i x (S i) rest
      else argmax_from best vbest (S i) rest
  end.

Definition np_argmax (l : list R) : Py nat :=
  match l with
  | [] => Raise ValueError
  | x :: rest => Ret (argmax_from 0 x 1 rest)
  end.

(** [lucky_a_tilde = a_tildes[np.argmax(probs)]] *)
Definition lucky_a_tilde (m : nat) (folded : list R) : Py R :=
  k ← np_argmax folded;
  getitem (a_tildes m) k.

(** [max_freq = p_tilde[np.argmax(freqs)]] *)
Definition max_freq (m : nat) (freqs : list R) : Py R :=
  k ← np_argmax freqs;
  getitem (p_tilde m) k.

(** ** Affine map back to function values *)

Section Objective.

(** The notebook's globals [c], [f_min] and [f_max]. *)
Variables (c f_min f_max : R).

(** [def ExpectedFx(a):]
    [    scaled_value = (a-1/2)/c + 1/2]
    [    value = scaled_value*(f_max-f_min) + f_min]
    [    return value]

    Every call passes a [numpy.float64]: an entry of [a_tildes], which is
    a squared sine and so a number.  The arithmetic is then numpy's and
    the body raises nothing, also for [c = 0]. *)
Definition ExpectedFx (a : R) : Py float64 :=
  let scaled_value := f64_add (f64_truediv (f64_sub a (1 / 2)) c) (1 / 2) in
  let value := f64_add (f64_mul scaled_value (f_max - f_min)) f_min in
  Ret value.

End Objective.

(** ** Normalisation of noisy results

    [prob_sum = sum([sample.probability for sample in result])]
    [noisy_probabilities = [sample.probability/prob_sum for sample in result]] *)

Definition prob_sum (result : list Sample) : R :=
  sum (map probability result).

Definition noisy_probabilities (result : list Sample) : Py (list R) :=
  mapM (fun sample => truediv (probability sample) (prob_sum result)) result.

(** ** The whole post-processing cell

    [nb_eval_qbits] is a Python integer.  For a negative one [2**m] is a
    float and [np.zeros] raises; for zero the fill runs on one slot and
    [range(2**(m-1)+1)] then raises on the float [1.5]. *)

Record Decoded : Type :=
  mkDecoded { dec_grid : list R; dec_probs : list R; dec_estimate : R }.

Definition postprocess (nb_eval_qbits : Z) (result : list Sample) : Py Decoded :=
  match nb_eval_qbits with
  | Zneg _ => Raise TypeError
  | Z0 => _ ← all_probs 0 result; Raise TypeError
  | Zpos _ =>
      let m := Z.to_nat nb_eval_qbits in
      arr ← all_probs m result;
      folded ← probs m arr;
      est ← lucky_a_tilde m folded;
      Ret (mkDecoded (a_tildes m) folded est)
  end.

(** ** Binning of the input data (housing notebook)

    [def create_bins(array, nbbins):]
    [    minimum = min(array)]
    [    maximum = max(array)]
    [    breakpoints = np.linspace(minimum, maximum, nbbins, endpoint = False)]
    [    counts = np.zeros((nbbins))]
    [    for value in array:]
    [        for i in range(len(breakpoints)):]
    [            if value >= breakpoints[len(breakpoints)-1-i]:]
    [                counts[len(counts)-1-i] += 1]
    [                break]
    [    return np.array([breakpoints, counts])] *)

(** Python's [min] and [max]: an empty sequence raises. *)
Definition py_min (l : list R) : Py R :=
  match l with
  | [] => Raise ValueError
  | x :: rest => Ret (fold_left Rmin rest x)
  end.

Definition py_max (l : list R) : Py R :=
  match l with
  | [] => Raise ValueError
  | x :: rest => Ret (fold_left Rmax rest x)
  end.

(** [np.linspace(start, stop, num, endpoint = False)]: the step is
    [(stop - start) / num] and entry [i] is [i * step + start]. *)
Definition np_linspace (start stop : R) (num : nat) : list R :=
  map (fun i => INR i * ((stop - start) / INR num) + start) (seq 0 num).

(** The inner [for] with its [break]; [range_i] is what is left of
    [range(len(breakpoints))]. *)
Fixpoint count_value (breakpoints counts : list R) (value : R)
         (range_i : list nat) : Py (list R) :=
  match range_i with
  | [] => Ret counts
  | i :: rest =>
      b ← getitem breakpoints (length breakpoints - 1 - i);
      if Rge_dec value b then
        old ← getitem counts (length counts - 1 - i);
        setitem counts (length counts - 1 - i) (old + 1)
      else count_value breakpoints counts value rest
  end.

(** The outer [for value in array]. *)
Fixpoint count_all (breakpoints counts : list R) (array : list R)
  : Py (list R) :=
  match array with
  | [] => Ret counts
  | value :: rest =>
      counts' ← count_value breakpoints counts value
                  (seq 0 (length breakpoints));
      count_all breakpoints counts' rest
  end.

Definition create_bins (array : list R) (nbbins : nat) : Py (list R * list R) :=
  minimum ← py_min array;
  maximum ← py_max array;
  let breakpoints := np_linspace minimum maximum nbbins in
  counts ← count_all breakpoints (np_zeros nbbins) array;
  Ret (breakpoints, counts).

(** [price_bins = create_bins(hki_2020,8)]
    [sum_price_freqs = sum(price_bins[1])]
    [price_probs = [freq/sum_price_freqs for freq in price_bins[1]]]

    The counts are numpy floats, whose division does not raise. *)
Definition price_probs (hki_2020 : list R) : Py (list R) :=
  price_bins ← create_bins hki_2020 8;
  let sum_price_freqs := sum (snd price_bins) in
  Ret (map (fun freq => freq / sum_price_freqs) (snd price_bins)).

(** [growth_probs] is computed from [hki_growth] by the same three lines. *)
Definition growth_probs (hki_growth : list R) : Py (list R) :=
  growth_bins ← create_bins hki_growth 8;
  let sum_growth_freqs := sum (snd growth_bins) in
  Ret (map (fun freq => freq / sum_growth_freqs) (snd growth_bins)).

(** The half-open interval of bin [j] among [n] bins of width [w] that
    start at [lo]; the last bin is open-ended. *)
Definition in_bin (lo w : R) (n j : nat) (v : R) : Prop :=
  lo + INR j * w <= v /\ (S j = n \/ v < lo + INR (S j) * w).

#[global] Instance in_bin_dec (lo w : R) (n j : nat) (v : R) :
  Decision (in_bin lo w n j v).
Proof.
  unfold in_bin.
  destruct (Rle_dec (lo + INR j * w) v) as [H1|H1];
    [|right; intros [H _]; contradiction].
  destruct (Nat.eq_dec (S j) n) as [H2|H2]; [left; auto|].
  destruct (Rlt_dec v (lo + INR (S j) * w)) as [H3|H3]; [left; auto|].
  right. intros [_ [H|H]]; contradiction.
Defined.

(** ** The price function and its scaling (housing notebook)

    [def price_mapping(growth_var,price_var):]
    [    return 1817.1710025 + 284.12916*growth_var + 826.066125*price_var]
    [def scaled_mapping(growth_var, price_var):]
    [    fmin = price_mapping(0,0)]
    [    fmax = price_mapping(7,7)]
    [    return (price_mapping(growth_var, price_var)-fmin)/(fmax-fmin)] *)

Definition price_mapping (growth_var price_var : R) : R :=
  1817.1710025 + 284.12916 * growth_var + 826.066125 * price_var.

Definition scaled_mapping (growth_var price_var : R) : R :=
  let fmin := price_mapping 0 0 in
  let fmax := price_mapping 7 7 in
  (price_mapping growth_var price_var - fmin) / (fmax - fmin).

(** [possible_v = [ExpectedFx(a) for a in a_tildes]] *)
Definition possible_v (c f_min f_max : R) (m : nat) : Py (list float64) :=
  mapM (ExpectedFx c f_min f_max) (a_tildes m).

(** ** Routines as lists of gates

    A [QRoutine] is modelled by the list of the gates applied to it, in
    order; wires are numbered from 0. *)

Inductive Gate : Type :=
| X_gate (q : nat)
| H_gate (q : nat)
| SWAP_gate (q1 q2 : nat)
| CRY_gate (angle : R) (control target : nat).

(** [rout.new_wires(n)] on a fresh routine, and [wires[i]]. *)
Definition new_wires (n : nat) : list nat := seq 0 n.

Definition wire (wires : list nat) (i : nat) : Py nat :=
  match wires !! i with
  | Some w => Ret w
  | None => Raise IndexError
  end.

(** [def u_generator(n):]
    [    rout = QRoutine()]
    [    wires = rout.new_wires(n)]
    [    for q in range(n):]
    [        rout.apply(X, wires[q])]
    [    rout.apply(SWAP, wires[1], wires[2])]
    [    rout.apply(SWAP, wires[2], wires[3])]
    [    rout.apply(SWAP, wires[0], wires[3])]
    [    return rout] *)
Definition u_generator (n : nat) : Py (list Gate) :=
  let wires := new_wires n in
  flips ← mapM (fun q => w ← wire wires q; Ret (X_gate w)) (seq 0 n);
  a1 ← wire wires 1; b1 ← wire wires 2;
  a2 ← wire wires 2; b2 ← wire wires 3;
  a3 ← wire wires 0; b3 ← wire wires 3;
  Ret (flips ++ [SWAP_gate a1 b1; SWAP_gate a2 b2; SWAP_gate a3 b3]).

(** [def swap_register(m):]
    [    rout = QRoutine()]
    [    i = 1]
    [    while i <= m/2:]
    [        rout.apply(SWAP, i-1, m-i)]
    [        i += 1]
    [    return rout]

    The test [i <= m/2] on a float quotient is the integer test
    [2*i <= m]. *)
Equations? swap_while (m i : nat) (rout : list Gate) : list Gate
  by wf (m + 1 - 2 * i)%nat lt :=
  swap_while m i rout with decide (2 * i <= m)%nat => {
    | left _ := swap_while m (S i) (rout ++ [SWAP_gate (i - 1) (m - i)]);
    | right _ := rout }.
Proof. lia. Qed.

Definition swap_register (m : nat) : list Gate := swap_while m 1 [].

(** Python's [x % y] on floats, for [y <> 0]: [x - y * floor(x / y)]. *)
Definition py_mod (x y : R) : R := x - y * IZR (Int_part (x / y)).

(** [def Q_gates(m):]
    [    rout = QRoutine()]
    [    wires = rout.new_wires(m)]
    [    single_wire = rout.new_wires(1)]
    [    for i in range(m):]
    [        angle = 2**(i+1)*theta_p % (4*np.pi)]
    [        rout.apply(RY(angle).ctrl(), wires[i], single_wire)]
    [    return rout]

    [theta_p] is a global of the notebook. *)
Definition Q_gates (theta_p : R) (m : nat) : list Gate :=
  map (fun i =>
         let angle := py_mod (2 ^ (i + 1) * theta_p) (4 * PI) in
         CRY_gate angle i m)
      (seq 0 m).

(** The action of [X] and [SWAP] on a computational basis state, given as
    the list of the bits on the wires; the other gates have no such
    action. *)
Definition flip_wire (q : nat) (reg : list bool) : option (list bool) :=
  match reg !! q with
  | Some b => Some (<[q := negb b]> reg)
  | None => None
  end.

Definition swap_wires (q1 q2 : nat) (reg : list bool) : option (list bool) :=
  match reg !! q1, reg !! q2 with
  | Some x, Some y => Some (<[q1 := y]> (<[q2 := x]> reg))
  | _, _ => None
  end.

Definition apply_classical (g : Gate) (reg : list bool) : option (list bool) :=
  match g with
  | X_gate q => flip_wire q reg
  | SWAP_gate q1 q2 => swap_wires q1 q2 reg
  | H_gate _ | CRY_gate _ _ _ => None
  end.

Fixpoint run_classical (gates : list Gate) (reg : list bool)
  : option (list bool) :=
  match gates with
  | [] => Some reg
  | g :: rest =>
      match apply_classical g reg with
      | Some reg' => run_classical rest reg'
      | None => None
      end
  end.

(** A register of [n] wires holding the number [y], wire 0 carrying the
    least significant bit, and the number that a register holds. *)
Definition bits_of (n y : nat) : list bool :=
  map (Nat.testbit y) (seq 0 n).

Fixpoint value_of (reg : list bool) : nat :=
  match reg with
  | [] => 0
  | b :: rest => Nat.b2n b + 2 * value_of rest
  end.

(** ** Powers of the Grover operator

    The loop of [Q_to_j] in the housing notebook appends four gates per
    turn:

    [i = 0]
    [while i < 2**j:]
    [    Qj_rout.apply(S_psi_gate(), ...)]
    [    Qj_rout.apply(A_rout.dag(), ...)]
    [    Qj_rout.apply(S_0_gate(), ...)]
    [    Qj_rout.apply(A_rout, ...)]
    [    i += 1] *)

Inductive QStep : Type := S_psi_gate | A_rout_dag | S_0_gate | A_rout.

Equations? Q_to_j_while (j i : nat) (Qj_rout : list QStep) : list QStep
  by wf (2 ^ j - i)%nat lt :=
  Q_to_j_while j i Qj_rout with decide (i < 2 ^ j)%nat => {
    | left _ :=
        Q_to_j_while j (S i)
          (Qj_rout ++ [S_psi_gate; A_rout_dag; S_0_gate; A_rout]);
    | right _ := Qj_rout }.
Proof. lia. Qed.

Definition Q_to_j (j : nat) : list QStep := Q_to_j_while j 0 [].

(** The loop of [Q_matrix] in the expected-value notebook multiplies
    matrices; the matrix type, [np.matmul] and the matrix
    [single_matrix] that the function computes first are parameters here.

    [Q_matrix = single_matrix]
    [i = 0]
    [while i < 2**j-1:]
    [    Q_matrix = np.matmul(single_matrix,Q_matrix)]
    [    i += 1]
    [return Q_matrix] *)

Section QMatrix.

Variable Mat : Type.
Variable matmul : Mat -> Mat -> Mat.

Equations? Q_matrix_while (single_matrix : Mat) (j i : nat) (Q_matrix : Mat)
  : Mat by wf (2 ^ j - 1 - i)%nat lt :=
  Q_matrix_while single_matrix j i Q_matrix with decide (i < 2 ^ j - 1)%nat => {
    | left _ :=
        Q_matrix_while single_matrix j (S i) (matmul single_matrix Q_matrix);
    | right _ := Q_matrix }.
Proof. lia. Qed.

Definition Q_matrix (single_matrix : Mat) (j : nat) : Mat :=
  Q_matrix_while single_matrix j 0 single_matrix.

(** The product of [n + 1] copies of a matrix. *)
Fixpoint matrix_power (single_matrix : Mat) (n : nat) : Mat :=
  match n with
  | 0 => single_matrix
  | S n' => matmul single_matrix (matrix_power single_matrix n')
  end.

End QMatrix.

(** ** Real matrices as nested lists, with the numpy operations used *)

Definition Matrix : Type := list (list R).

Definition ncols (A : Matrix) : nat :=
  match A with
  | [] => 0
  | row :: _ => length row
  end.

Definition column (j : nat) (A : Matrix) : list R :=
  map (fun row => nth j row 0) A.

Definition dot (u v : list R) : R := sum (zip_with Rmult u v).

(** [np.identity(n)] *)
Definition np_identity (n : nat) : Matrix :=
  map (fun i => map (fun j => if decide (i = j) then 1 else 0) (seq 0 n))
      (seq 0 n).

(** [np.matmul(A, B)] on two-dimensional arrays. *)
Definition np_matmul (A B : Matrix) : Matrix :=
  map (fun row => map (fun j => dot row (column j B)) (seq 0 (ncols B))) A.

(** [np.kron(A, B)]: the block matrix of the [a_ij * B]. *)
Definition np_kron (A B : Matrix) : Matrix :=
  flat_map
    (fun rowA => map (fun rowB => flat_map (fun a => map (Rmult a) rowB) rowA) B)
    A.

(** [np.transpose(A)] *)
Definition np_transpose (A : Matrix) : Matrix :=
  map (fun j => column j A) (seq 0 (ncols A)).

(** [s * A], [A / s] and [A + B], entry by entry. *)
Definition np_scale (s : R) (A : Matrix) : Matrix := map (map (Rmult s)) A.

Definition np_div_scalar (A : Matrix) (s : R) : Matrix :=
  map (map (fun a => a / s)) A.

Definition np_add (A B : Matrix) : Matrix := zip_with (zip_with Rplus) A B.

(** ** The gate matrices of the expected-value notebook

    [def ry_matrix(theta):]
    [    return np.array([[np.cos(theta/2),-np.sin(theta/2)],]
    [                     [np.sin(theta/2),np.cos(theta/2)]])] *)
Definition ry_matrix (theta : R) : Matrix :=
  [[cos (theta / 2); - sin (theta / 2)];
   [sin (theta / 2); cos (theta / 2)]].

(** [def D_matrix():]
    [    theta0 = 2*np.arccos(np.sqrt(2/3))]
    [    theta1 = np.pi/3]
    [    matrix = np.kron(ry_matrix(theta1), ry_matrix(theta0))]
    [    return matrix] *)
Definition D_matrix : Matrix :=
  let theta0 := 2 * acos (sqrt (2 / 3)) in
  let theta1 := PI / 3 in
  np_kron (ry_matrix theta1) (ry_matrix theta0).

(** [def only_ry(theta):]
    [    return np.kron(np.identity(4),ry_matrix(2*theta))] *)
Definition only_ry (theta : R) : Matrix :=
  np_kron (np_identity 4) (ry_matrix (2 * theta)).

(** [def cry_0to2(theta):]
    [    theta = 2*theta]
    [    matrix = np.array([[1,0,0,0,0,0,0,0], ...])] *)
Definition cry_0to2 (theta0 : R) : Matrix :=
  let theta := 2 * theta0 in
  [[1; 0; 0; 0; 0; 0; 0; 0];
   [0; 1; 0; 0; 0; 0; 0; 0];
   [0; 0; 1; 0; 0; 0; 0; 0];
   [0; 0; 0; 1; 0; 0; 0; 0];
   [0; 0; 0; 0; cos (theta / 2); - sin (theta / 2); 0; 0];
   [0; 0; 0; 0; sin (theta / 2); cos (theta / 2); 0; 0];
   [0; 0; 0; 0; 0; 0; cos (theta / 2); - sin (theta / 2)];
   [0; 0; 0; 0; 0; 0; sin (theta / 2); cos (theta / 2)]].

(** [def cry_1to2(theta):]
    [    theta = 2*theta]
    [    cry_matrix= np.array([[1,0,0,0], ...])]
    [    matrix = np.kron(np.identity(2),cry_matrix)]
    [    return matrix] *)
Definition cry_1to2 (theta0 : R) : Matrix :=
  let theta := 2 * theta0 in
  let cry_matrix :=
    [[1; 0; 0; 0];
     [0; 1; 0; 0];
     [0; 0; cos (theta / 2); - sin (theta / 2)];
     [0; 0; sin (theta / 2); cos (theta / 2)]] in
  np_kron (np_identity 2) cry_matrix.

(** [def F_matrix():]
    [    f_1 = 2*c/3]
    [    f_0 = - c + np.pi/4]
    [    matrix = np.matmul(cry_0to2(2*f_1),np.matmul(cry_1to2(f_1),only_ry(f_0)))]
    [    return matrix]

    [c] is a global of the notebook. *)
Definition F_matrix (c : R) : Matrix :=
  let f_1 := 2 * c / 3 in
  let f_0 := - c + PI / 4 in
  np_matmul (cry_0to2 (2 * f_1)) (np_matmul (cry_1to2 f_1) (only_ry f_0)).

(** [def make_A_matrix():]
    [    return np.matmul(F_matrix(),np.kron(D_matrix(),np.identity(2)))] *)
Definition make_A_matrix (c : R) : Matrix :=
  np_matmul (F_matrix c) (np_kron D_matrix (np_identity 2)).

(** The plane rotation by [phi], and the block-diagonal matrix of four
    such rotations. *)
Definition rot_blocks (phi0 phi1 phi2 phi3 : R) : Matrix :=
  [[cos phi0; - sin phi0; 0; 0; 0; 0; 0; 0];
   [sin phi0; cos phi0; 0; 0; 0; 0; 0; 0];
   [0; 0; cos phi1; - sin phi1; 0; 0; 0; 0];
   [0; 0; sin phi1; cos phi1; 0; 0; 0; 0];
   [0; 0; 0; 0; cos phi2; - sin phi2; 0; 0];
   [0; 0; 0; 0; sin phi2; cos phi2; 0; 0];
   [0; 0; 0; 0; 0; 0; cos phi3; - sin phi3];
   [0; 0; 0; 0; 0; 0; sin phi3; cos phi3]].

(** The angle that the objective function assigns to the value [i]. *)
Definition objective_angle (c : R) (i : R) : R := c * (2 * i / 3 - 1) + PI / 4.

(** The expected-value notebook has its own read-out map:

    [def ExpectedFx(a):]
    [    return 3*((a-1/2)/c+1)/2]

    Its argument is the [numpy.float64] sum [a] of squared moduli of the
    state vector, or an entry of [a_tildes]; the arithmetic is numpy's
    and raises nothing. *)
Module ExpectedValue.

Definition ExpectedFx (c a : R) : Py float64 :=
  Ret (f64_truediv
         (f64_mul 3 (f64_add (f64_truediv (f64_sub a (1 / 2)) c) 1)) 2).

End ExpectedValue.

(** ** The noisy gates of the factoring notebook

    A [QuantumChannelKraus] is modelled by the list of its Kraus
    operators.

    [noisy_X = QuantumChannelKraus([np.sqrt(px)*np.array([[0,1],[1,0]]),]
    [                               np.sqrt(1-px)*np.identity(2)])] *)
Definition noisy_X (px : R) : list Matrix :=
  [np_scale (sqrt px) [[0; 1]; [1; 0]];
   np_scale (sqrt (1 - px)) (np_identity 2)].

(** [noisy_H = QuantumChannelKraus([np.sqrt(ph)*np.array([[1, 1], [1, -1]])/np.sqrt(2),]
    [                               np.sqrt(1-ph)*np.identity(2)])] *)
Definition noisy_H (ph : R) : list Matrix :=
  [np_div_scalar (np_scale (sqrt ph) [[1; 1]; [1; -1]]) (sqrt 2);
   np_scale (sqrt (1 - ph)) (np_identity 2)].

(** [noisy_C_SWAP = QuantumChannelKraus([np.sqrt(pcswap)*np.array([[1,0,0,0,0,0,0,0], ...]),]
    [                                    np.sqrt(1-pcswap)*np.identity(8)])] *)
Definition noisy_C_SWAP (pcswap : R) : list Matrix :=
  [np_scale (sqrt pcswap)
     [[1; 0; 0; 0; 0; 0; 0; 0];
      [0; 1; 0; 0; 0; 0; 0; 0];
      [0; 0; 1; 0; 0; 0; 0; 0];
      [0; 0; 0; 1; 0; 0; 0; 0];
      [0; 0; 0; 0; 1; 0; 0; 0];
      [0; 0; 0; 0; 0; 0; 1; 0];
      [0; 0; 0; 0; 0; 1; 0; 0];
      [0; 0; 0; 0; 0; 0; 0; 1]];
   np_scale (sqrt (1 - pcswap)) (np_identity 8)].

(** The sum of [K^T K] over the Kraus operators of a channel with real
    entries. *)
Definition kraus_sum (n : nat) (channel : list Matrix) : Matrix :=
  fold_left (fun acc K => np_add acc (np_matmul (np_transpose K) K))
            channel (np_scale 0 (np_identity n)).

(** Helper names used in the statements below. *)
Definition swap_step (m k : nat) : Gate := SWAP_gate (k - 1) (m - k).

Definition Q_block : list QStep := [S_psi_gate; A_rout_dag; S_0_gate; A_rout].

(** ** Complex numbers and complex matrices

    A Python complex number is a pair of its real and imaginary parts. *)

Definition complex : Type := (R * R)%type.

Definition Cre (z : complex) : R := fst z.
Definition Cim (z : complex) : R := snd z.
Definition Cadd (z w : complex) : complex := (Cre z + Cre w, Cim z + Cim w).
Definition Cmul (z w : complex) : complex :=
  (Cre z * Cre w - Cim z * Cim w, Cre z * Cim w + Cim z * Cre w).
Definition Cconj (z : complex) : complex := (Cre z, - Cim z).
Definition RtoC (x : R) : complex := (x, 0).

(** [abs(z)] *)
Definition Cabs (z : complex) : R := sqrt (Cre z * Cre z + Cim z * Cim z).

Definition CMatrix : Type := list (list complex).

Definition Csum (l : list complex) : complex := fold_left Cadd l (RtoC 0).

Definition Ccolumn (j : nat) (A : CMatrix) : list complex :=
  map (fun row => nth j row (RtoC 0)) A.

Definition Cncols (A : CMatrix) : nat :=
  match A with
  | [] => 0
  | row :: _ => length row
  end.

Definition Cmatmul (A B : CMatrix) : CMatrix :=
  map (fun row =>
         map (fun j => Csum (zip_with Cmul row (Ccolumn j B)))
             (seq 0 (Cncols B)))
      A.

(** [np.conjugate(np.transpose(A))] *)
Definition Cdagger (A : CMatrix) : CMatrix :=
  map (fun j => map Cconj (Ccolumn j A)) (seq 0 (Cncols A)).

Definition Cscale (s : R) (A : CMatrix) : CMatrix :=
  map (map (Cmul (RtoC s))) A.

Definition Cmat_add (A B : CMatrix) : CMatrix := zip_with (zip_with Cadd) A B.

Definition Cdiag (d : list R) : CMatrix :=
  map (fun i =>
         map (fun j => if decide (i = j) then RtoC (nth i d 0) else RtoC 0)
             (seq 0 (length d)))
      (seq 0 (length d)).

(** The sum of [K^dagger K] over the Kraus operators of a channel. *)
Definition Ckraus_sum (n : nat) (channel : list CMatrix) : CMatrix :=
  fold_left (fun acc K => Cmat_add acc (Cmatmul (Cdagger K) K))
            channel (Cdiag (replicate n 0)).

(** [noisy_CNOT = QuantumChannelKraus([np.sqrt(pcnot)*np.array([[1, 0, 0, 0],]
    [                                                            [0, 1, 0, 0],]
    [                                                            [0, 0, 1, -1j],]
    [                                                            [0, 0, -1j, 1]]),]
    [                                  np.sqrt(1-pcnot)*np.identity(4)])] *)
Definition noisy_CNOT (pcnot : R) : list CMatrix :=
  [Cscale (sqrt pcnot)
     [[(1, 0); (0, 0); (0, 0); (0, 0)];
      [(0, 0); (1, 0); (0, 0); (0, 0)];
      [(0, 0); (0, 0); (1, 0); (0, -1)];
      [(0, 0); (0, 0); (0, -1); (1, 0)]];
   Cscale (sqrt (1 - pcnot)) (Cdiag [1; 1; 1; 1])].

(** [noisy_C_PH = lambda theta : QuantumChannelKraus(]
    [    [np.sqrt(pcph)* np.array([[1, 0, 0, 0], [0, 1, 0, 0], [0, 0, 1, 0],]
    [                              [0, 0, 0, np.exp(theta*1j)] ]),]
    [     np.sqrt(1-pcph)*np.identity(4)])]

    [np.exp(theta*1j)] is [cos theta + sin theta * 1j]. *)
Definition noisy_C_PH (pcph theta : R) : list CMatrix :=
  [Cscale (sqrt pcph)
     [[(1, 0); (0, 0); (0, 0); (0, 0)];
      [(0, 0); (1, 0); (0, 0); (0, 0)];
      [(0, 0); (0, 0); (1, 0); (0, 0)];
      [(0, 0); (0, 0); (0, 0); (cos theta, sin theta)]];
   Cscale (sqrt (1 - pcph)) (Cdiag [1; 1; 1; 1])].

(** ** Renormalising the state vector

    [statevector_sum = sum([abs(i)**2 for i in statevector_psi])]
    [for i in range(n):]
    [    statevector_psi[i]  = statevector_psi[i]/np.sqrt(statevector_sum)]

    The same lines appear in [get_psi] of the housing notebook.  The
    entries are numpy numbers: dividing by zero gives [nan] and a warning,
    not an exception; [None] stands for such a result. *)
Definition np_cdiv (z : complex) (r : R) : option complex :=
  if Req_dec_T r 0 then None else Some (Cre z / r, Cim z / r).

Definition statevector_sum (statevector_psi : list complex) : R :=
  sum (map (fun i => Cabs i ^ 2) statevector_psi).

Definition renormalize (statevector_psi : list complex) : option (list complex) :=
  mapM (fun amp => np_cdiv amp (sqrt (statevector_sum statevector_psi)))
       statevector_psi.

(** ** Splitting the state vector by the objective qubit

    [psi_0 = []]
    [psi_1 = []]
    [for i in range(2**(nb_dist_qbits)):]
    [    psi_0.append(sv[2*i])]
    [    psi_1.append(sv[2*i+1])]
    [a = sum([abs(i)**2 for i in psi_1])] *)

Definition getitem_complex (arr : list complex) (i : nat) : Py complex :=
  match arr !! i with
  | Some z => Ret z
  | None => Raise IndexError
  end.

Fixpoint split_loop (sv : list complex) (range_i : list nat)
         (psi_0 psi_1 : list complex) : Py (list complex * list complex) :=
  match range_i with
  | [] => Ret (psi_0, psi_1)
  | i :: rest =>
      even ← getitem_complex sv (2 * i);
      odd ← getitem_complex sv (2 * i + 1);
      split_loop sv rest (psi_0 ++ [even]) (psi_1 ++ [odd])
  end.

Definition split_statevector (nb_dist_qbits : nat) (sv : list complex)
  : Py (list complex * list complex) :=
  split_loop sv (seq 0 (2 ^ nb_dist_qbits)) [] [].

(** ** The angle of the T-bill notebook

    [theta_p = 2*np.arcsin(np.sqrt(p))] *)
Definition theta_p (p : R) : R := 2 * asin (sqrt p).

(** * Properties *)

(** ** Sums *)

Lemma fold_left_Rplus_acc (l : list R) (a : R) :
  fold_left Rplus l a = a + fold_left Rplus l 0.
Proof.
  revert a. induction l as [|x l IH]; intros a; simpl.
  - lra.
  - rewrite (IH (a + x)), (IH (0 + x)). lra.
Qed.

Lemma sum_nil : sum [] = 0.
Proof. reflexivity. Qed.

Lemma sum_cons (x : R) (l : list R) : sum (x :: l) = x + sum l.
Proof. unfold sum. simpl. rewrite fold_left_Rplus_acc. lra. Qed.

Lemma sum_app (l1 l2 : list R) : sum (l1 ++ l2) = sum l1 + sum l2.
Proof.
  induction l1 as [|x l1 IH]; simpl.
  - rewrite sum_nil. lra.
  - rewrite !sum_cons, IH. lra.
Qed.

Lemma sum_map_plus (f g : nat -> R) (l : list nat) :
  sum (map (fun k => f k + g k) l) = sum (map f l) + sum (map g l).
Proof.
  induction l as [|k l IH]; simpl.
  - rewrite sum_nil. lra.
  - rewrite !sum_cons, IH. lra.
Qed.

(** Reading a segment backwards from [N] visits the segment below [N]. *)
Lemma sum_map_mirror (f : nat -> R) (N n : nat) :
  (n <= N)%nat ->
  sum (map (fun k => f (N - k)%nat) (seq 1 n)) = sum (map f (seq (N - n) n)).
Proof.
  induction n as [|n IH]; intros Hn.
  - reflexivity.
  - rewrite seq_S, map_app, sum_app. simpl map at 2.
    rewrite IH by lia.
    replace (N - S n)%nat with (N - n - 1)%nat by lia.
    change (seq (N - n - 1) (S n)) with ((N - n - 1)%nat :: seq (S (N - n - 1)) n).
    replace (S (N - n - 1)) with (N - n)%nat by lia.
    simpl map. rewrite !sum_cons, sum_nil.
    replace (N - (1 + n))%nat with (N - n - 1)%nat by lia. lra.
Qed.

Lemma sum_replicate_0 (n : nat) : sum (replicate n 0) = 0.
Proof.
  induction n as [|n IH]; simpl.
  - reflexivity.
  - rewrite sum_cons, IH. lra.
Qed.

Lemma sum_insert (l : list R) (i : nat) (x v : R) :
  l !! i = Some x -> sum (<[i:=v]> l) = sum l - x + v.
Proof.
  revert i. induction l as [|y l IH]; intros [|i] H; simpl in *; try discriminate.
  - injection H as ->. rewrite !sum_cons. lra.
  - rewrite !sum_cons, (IH i H). lra.
Qed.

(** An array is the list of its own entries. *)
Lemma list_as_map_nth (l : list R) :
  l = map (fun k => nth k l 0) (seq 0 (length l)).
Proof.
  induction l as [|x l IH]; simpl.
  - reflexivity.
  - f_equal. rewrite <- seq_shift, map_map. exact IH.
Qed.

(** ** Array primitives *)

Lemma getitem_lt (arr : list R) (i : nat) :
  (i < length arr)%nat -> getitem arr i = Ret (nth i arr 0).
Proof.
  intros Hi. unfold getitem.
  destruct (lookup_lt_is_Some_2 arr i Hi) as [x Hx].
  rewrite Hx. f_equal. symmetry. now apply nth_lookup_Some.
Qed.

Lemma getitem_ge (arr : list R) (i : nat) :
  (length arr <= i)%nat -> getitem arr i = Raise IndexError.
Proof.
  intros Hi. unfold getitem. now rewrite (lookup_ge_None_2 arr i Hi).
Qed.

Lemma nth_lookup_lt (arr : list R) (i : nat) :
  (i < length arr)%nat -> arr !! i = Some (nth i arr 0).
Proof.
  intros Hi. destruct (lookup_lt_is_Some_2 arr i Hi) as [x Hx].
  rewrite Hx. f_equal. symmetry. now apply nth_lookup_Some.
Qed.

(** ** Folding *)

Lemma fold_while_run (n : nat) :
  forall (arr : list R) (h i : nat) (acc : list R),
    length arr = (2 * h)%nat -> (1 <= i)%nat -> (i + n = h)%nat ->
    fold_while arr (2 * h) i acc
    = Ret (acc ++ map (pair_at arr (2 * h)) (seq i n)).
Proof.
  induction n as [|n IH]; intros arr h i acc Hlen Hi Hn.
  - simp fold_while. destruct (decide (2 * i < 2 * h)%nat) as [Hlt|Hge]; [lia|].
    simpl. now rewrite app_nil_r.
  - simp fold_while. destruct (decide (2 * i < 2 * h)%nat) as [Hlt|Hge]; [|lia].
    simpl. rewrite (getitem_lt arr i) by lia.
    rewrite (getitem_lt arr (h + (h + 0) - i)) by lia. simpl.
    change (h + (h + 0))%nat with (2 * h)%nat.
    rewrite (IH arr h (S i)) by lia.
    rewrite <- app_assoc. reflexivity.
Qed.

Lemma pow2_half (m : nat) : (1 <= m)%nat -> (2 ^ m = 2 * 2 ^ (m - 1))%nat.
Proof.
  intros Hm. destruct m as [|m]; [lia|].
  replace (S m - 1)%nat with m by lia. now rewrite Nat.pow_succ_r'.
Qed.

Lemma pow2_pos (m : nat) : (1 <= 2 ^ m)%nat.
Proof. induction m; simpl; lia. Qed.

Lemma probs_closed_form (m : nat) (arr : list R) :
  (1 <= m)%nat -> length arr = (2 ^ m)%nat ->
  probs m arr = Ret (folded_bins m arr).
Proof.
  intros Hm Hlen. unfold probs, folded_bins.
  pose proof (pow2_half m Hm) as Hh. pose proof (pow2_pos (m - 1)) as Hp.
  rewrite (getitem_lt arr 0) by lia. simpl.
  rewrite Hh in *.
  rewrite (fold_while_run (2 ^ (m - 1) - 1) arr (2 ^ (m - 1)) 1) by lia.
  simpl. rewrite (getitem_lt arr (2 ^ (m - 1))) by lia. simpl.
  reflexivity.
Qed.

Lemma folded_bins_length (m : nat) (arr : list R) :
  length (folded_bins m arr) = (2 ^ (m - 1) + 1)%nat.
Proof.
  unfold folded_bins. pose proof (pow2_pos (m - 1)).
  rewrite !length_app, length_map, length_seq. simpl. lia.
Qed.

Lemma folded_bins_nth_mid (m : nat) (arr : list R) (k : nat) :
  (1 <= k <= 2 ^ (m - 1) - 1)%nat ->
  nth k (folded_bins m arr) 0 = pair_at arr (2 ^ m) k.
Proof.
  intros Hk. unfold folded_bins.
  destruct k as [|k]; [lia|]. simpl.
  rewrite app_nth1 by (rewrite length_map, length_seq; lia).
  rewrite (nth_indep _ 0 (pair_at arr (2 ^ m) 0))
    by (rewrite length_map, length_seq; lia).
  rewrite map_nth, seq_nth by lia. reflexivity.
Qed.

Lemma folded_bins_nth_last (m : nat) (arr : list R) :
  nth (2 ^ (m - 1)) (folded_bins m arr) 0 = nth (2 ^ (m - 1)) arr 0.
Proof.
  unfold folded_bins. pose proof (pow2_pos (m - 1)) as Hp.
  destruct (2 ^ (m - 1))%nat as [|h] eqn:E; [lia|]. simpl.
  rewrite app_nth2 by (rewrite length_map, length_seq; lia).
  rewrite length_map, length_seq.
  replace (h - (h - 0))%nat with 0%nat by lia. reflexivity.
Qed.

(** The folded bins carry the mass of the whole array. *)
Lemma sum_folded_bins (m : nat) (arr : list R) :
  (1 <= m)%nat -> length arr = (2 ^ m)%nat ->
  sum (folded_bins m arr) = sum arr.
Proof.
  intros Hm Hlen. pose proof (pow2_half m Hm) as Hh.
  pose proof (pow2_pos (m - 1)) as Hp.
  set (h := (2 ^ (m - 1))%nat) in *.
  set (f := fun k => nth k arr 0).
  rewrite (list_as_map_nth arr) at 2. fold f. rewrite Hlen, Hh.
  replace (2 * h)%nat with (1 + ((h - 1) + (1 + (h - 1))))%nat by lia.
  rewrite !seq_app, !map_app, !sum_app.
  unfold folded_bins. fold h. rewrite !sum_app. simpl seq. simpl map.
  change (pair_at arr (2 ^ m)) with (fun k => f k + f (2 ^ m - k)%nat).
  rewrite (sum_map_plus f (fun k => f (2 ^ m - k)%nat)).
  rewrite (sum_map_mirror f (2 ^ m) (h - 1)) by lia.
  rewrite Hh.
  replace (2 * h - (h - 1))%nat with (S (h - 1 + 1)) by lia.
  replace (S (h - 1)) with h by lia.
  replace (S (h - 1 + 1)) with (S h) by lia.
  replace (h - 1 + 1)%nat with h by lia.
  rewrite !sum_cons, !sum_nil. unfold f. lra.
Qed.

(** C1: for [m >= 1] and an array of length [2^m] the folding loop returns
    [2^(m-1)+1] bins: bin 0 is [arr[0]], bin [k] for
    [1 <= k <= 2^(m-1)-1] is [arr[k] + arr[2^m-k]], and bin [2^(m-1)] is
    [arr[2^(m-1)]]. *)
Theorem probs_folds_mirror_pairs (m : nat) (arr : list R) :
  (1 <= m)%nat -> length arr = (2 ^ m)%nat ->
  exists folded : list R,
    probs m arr = Ret folded /\
    length folded = (2 ^ (m - 1) + 1)%nat /\
    folded !! 0%nat = arr !! 0%nat /\
    (forall k : nat, (1 <= k <= 2 ^ (m - 1) - 1)%nat ->
       exists a b : R,
         arr !! k = Some a /\ arr !! (2 ^ m - k)%nat = Some b /\
         folded !! k = Some (a + b)) /\
    folded !! (2 ^ (m - 1))%nat = arr !! (2 ^ (m - 1))%nat.
Proof.
  intros Hm Hlen. exists (folded_bins m arr).
  pose proof (pow2_half m Hm) as Hh. pose proof (pow2_pos (m - 1)) as Hp.
  pose proof (folded_bins_length m arr) as Hfl.
  split; [now apply probs_closed_form|].
  split; [exact Hfl|].
  split; [|split].
  - rewrite (nth_lookup_lt arr 0) by lia. reflexivity.
  - intros k Hk. exists (nth k arr 0), (nth (2 ^ m - k) arr 0).
    rewrite (nth_lookup_lt arr k) by lia.
    rewrite (nth_lookup_lt arr (2 ^ m - k)) by lia.
    rewrite (nth_lookup_lt (folded_bins m arr) k) by lia.
    now rewrite folded_bins_nth_mid.
  - rewrite (nth_lookup_lt (folded_bins m arr)) by lia.
    rewrite (nth_lookup_lt arr) by lia.
    now rewrite folded_bins_nth_last.
Qed.

(** C2: for [m >= 1] and an array of length [2^m] the bins returned by the
    folding loop sum to the sum of the array; an array summing to 1 folds
    to bins summing to 1. *)
Theorem probs_conserves_mass (m : nat) (arr : list R) :
  (1 <= m)%nat -> length arr = (2 ^ m)%nat ->
  exists folded : list R,
    probs m arr = Ret folded /\
    sum folded = sum arr /\
    (sum arr = 1 -> sum folded = 1).
Proof.
  intros Hm Hlen. exists (folded_bins m arr).
  split; [now apply probs_closed_form|].
  pose proof (sum_folded_bins m arr Hm Hlen) as Hs.
  split; [exact Hs|]. intros H1. now rewrite Hs.
Qed.

(** ** Dense fill *)

Lemma setitem_lt (arr : list R) (i : nat) (v : R) :
  (i < length arr)%nat -> setitem arr i v = Ret (<[i:=v]> arr).
Proof. intros Hi. unfold setitem. now destruct (decide (i < length arr)%nat). Qed.

Lemma setitem_ge (arr : list R) (i : nat) (v : R) :
  (length arr <= i)%nat -> setitem arr i v = Raise IndexError.
Proof.
  intros Hi. unfold setitem. destruct (decide (i < length arr)%nat); [lia|reflexivity].
Qed.

Lemma fill_cons_lt (arr : list R) (sample : Sample) (rest : list Sample) :
  (state_int sample < length arr)%nat ->
  fill arr (sample :: rest)
  = fill (<[state_int sample := probability sample]> arr) rest.
Proof. intros Hi. simpl. now rewrite setitem_lt. Qed.

Lemma fill_length (result : list Sample) :
  forall arr arr' : list R, fill arr result = Ret arr' -> length arr' = length arr.
Proof.
  induction result as [|sample rest IH]; intros arr arr' H; simpl in H.
  - now injection H as <-.
  - unfold setitem in H.
    destruct (decide (state_int sample < length arr)%nat); [|discriminate].
    simpl in H. rewrite (IH _ _ H). apply length_insert.
Qed.

Lemma fill_in_range (result : list Sample) :
  forall arr : list R,
    Forall (fun sample => (state_int sample < length arr)%nat) result ->
    exists arr' : list R, fill arr result = Ret arr'.
Proof.
  induction result as [|sample rest IH]; intros arr Hall.
  - now exists arr.
  - inversion Hall as [|? ? Hs Hrest]; subst.
    rewrite fill_cons_lt by exact Hs. apply IH.
    now rewrite length_insert.
Qed.

Lemma fill_out_of_range (result : list Sample) :
  forall arr : list R,
    Exists (fun sample => (length arr <= state_int sample)%nat) result ->
    fill arr result = Raise IndexError.
Proof.
  induction result as [|sample rest IH]; intros arr Hex.
  - inversion Hex.
  - destruct (le_lt_dec (length arr) (state_int sample)) as [Hge|Hlt].
    + simpl. now rewrite setitem_ge.
    + rewrite fill_cons_lt by exact Hlt. apply IH.
      rewrite length_insert.
      inversion Hex as [? ? Hs|? ? Hrest]; subst; [lia|exact Hrest].
Qed.

Lemma fill_app (l1 l2 : list Sample) :
  forall arr : list R,
    fill arr (l1 ++ l2) = (arr1 ← fill arr l1; fill arr1 l2).
Proof.
  induction l1 as [|sample rest IH]; intros arr; simpl.
  - reflexivity.
  - destruct (setitem arr (state_int sample) (probability sample)); simpl.
    + apply IH.
    + reflexivity.
Qed.

(** Slots that no sample names keep their content. *)
Lemma fill_untouched (result : list Sample) (s : nat) :
  forall arr arr' : list R,
    fill arr result = Ret arr' ->
    Forall (fun sample => state_int sample <> s) result ->
    arr' !! s = arr !! s.
Proof.
  induction result as [|sample rest IH]; intros arr arr' H Hall; simpl in H.
  - now injection H as <-.
  - inversion Hall as [|? ? Hs Hrest]; subst.
    unfold setitem in H.
    destruct (decide (state_int sample < length arr)%nat); [|discriminate].
    simpl in H. rewrite (IH _ _ H Hrest).
    now apply list_lookup_insert_ne.
Qed.

(** The assignment that is not overwritten later is the one that is read. *)
Lemma fill_last_wins (pre post : list Sample) (sample : Sample) :
  forall arr arr' : list R,
    fill arr (pre ++ sample :: post) = Ret arr' ->
    Forall (fun later => state_int later <> state_int sample) post ->
    arr' !! state_int sample = Some (probability sample).
Proof.
  intros arr arr' H Hpost. rewrite fill_app in H.
  destruct (fill arr pre) as [arr1|e] eqn:E1; simpl in H; [|discriminate].
  unfold setitem in H.
  destruct (decide (state_int sample < length arr1)%nat) as [Hlt|]; [|discriminate].
  simpl in H. rewrite (fill_untouched _ _ _ _ H Hpost).
  now apply list_lookup_insert_eq.
Qed.

Lemma lookup_np_zeros (n s : nat) : (s < n)%nat -> np_zeros n !! s = Some 0.
Proof. intros Hs. unfold np_zeros. now apply lookup_replicate_2. Qed.

(** With pairwise distinct states every assignment lands on a zero slot,
    so the array gains exactly the probabilities written into it. *)
Lemma sum_fill_distinct (result : list Sample) :
  forall arr arr' : list R,
    fill arr result = Ret arr' ->
    NoDup (map state_int result) ->
    Forall (fun sample => arr !! state_int sample = Some 0) result ->
    sum arr' = sum arr + prob_sum result.
Proof.
  induction result as [|sample rest IH]; intros arr arr' H Hnd Hz; simpl in H.
  - injection H as <-. unfold prob_sum. simpl. rewrite sum_nil. lra.
  - unfold setitem in H.
    destruct (decide (state_int sample < length arr)%nat); [|discriminate].
    simpl in H, Hnd. apply NoDup_cons in Hnd as [Hnotin Hnd].
    inversion Hz as [|? ? Hs Hrest]; subst.
    rewrite (IH _ _ H Hnd).
    + rewrite (sum_insert _ _ _ _ Hs). unfold prob_sum. simpl map.
      rewrite sum_cons. lra.
    + rewrite Forall_forall in Hrest. apply Forall_forall. intros t Ht.
      rewrite list_lookup_insert_ne; [now apply Hrest|].
      intros Heq. apply Hnotin. rewrite Heq.
      apply list_elem_of_In, in_map, list_elem_of_In, Ht.
Qed.

(** ** Normalisation *)

Lemma sum_map_div (T : R) (l : list R) :
  sum (map (fun p => p / T) l) = sum l / T.
Proof.
  induction l as [|p l IH]; simpl.
  - rewrite sum_nil. lra.
  - rewrite !sum_cons, IH. lra.
Qed.

Lemma mapM_Py_cons {A B : Type} (f : A -> Py B) (x : A) (l : list A) :
  mapM f (x :: l) = (y ← f x; k ← mapM f l; Ret (y :: k)).
Proof. reflexivity. Qed.

Lemma mapM_truediv_nonzero (T : R) (l : list Sample) :
  T <> 0 ->
  mapM (fun sample => truediv (probability sample) T) l
  = Ret (map (fun sample => probability sample / T) l).
Proof.
  intros HT. induction l as [|sample l IH].
  - reflexivity.
  - rewrite mapM_Py_cons, IH. simpl map. unfold truediv.
    destruct (Req_dec_T T 0); [contradiction|]. reflexivity.
Qed.

Lemma noisy_probabilities_nonzero (result : list Sample) :
  prob_sum result <> 0 ->
  noisy_probabilities result
  = Ret (map (fun sample => probability sample / prob_sum result) result).
Proof. intros H. unfold noisy_probabilities. now apply mapM_truediv_nonzero. Qed.

Lemma all_probs_in_range (m : nat) (result : list Sample) :
  Forall (fun sample => (state_int sample < 2 ^ m)%nat) result ->
  exists arr : list R, all_probs m result = Ret arr /\ length arr = (2 ^ m)%nat.
Proof.
  intros Hall. unfold all_probs.
  destruct (fill_in_range result (np_zeros (2 ^ m))) as [arr Harr].
  { unfold np_zeros. now rewrite length_replicate. }
  exists arr. split; [exact Harr|].
  rewrite (fill_length _ _ _ Harr). unfold np_zeros. apply length_replicate.
Qed.

Lemma all_probs_out_of_range (m : nat) (result : list Sample) :
  Exists (fun sample => (2 ^ m <= state_int sample)%nat) result ->
  all_probs m result = Raise IndexError.
Proof.
  intros Hex. unfold all_probs. apply fill_out_of_range.
  unfold np_zeros. now rewrite length_replicate.
Qed.

(** ** The dense fill overwrites *)

Example all_probs_duplicate_state :
  all_probs 1 [mkSample 0 (1 / 4); mkSample 0 (1 / 2)] = Ret [1 / 2; 0].
Proof. reflexivity. Qed.

(** C10: the dense fill writes by assignment.  When the states are in
    range it returns an array of length [2^m] in which a state holds the
    probability of its last occurrence in the input (earlier occurrences
    are overwritten, nothing is added up), and a state that does not occur
    holds exactly 0. *)
Theorem all_probs_last_occurrence_wins (m : nat) (result : list Sample) :
  Forall (fun sample => (state_int sample < 2 ^ m)%nat) result ->
  exists arr : list R,
    all_probs m result = Ret arr /\
    length arr = (2 ^ m)%nat /\
    (forall (pre post : list Sample) (sample : Sample),
        result = pre ++ sample :: post ->
        Forall (fun later => state_int later <> state_int sample) post ->
        arr !! state_int sample = Some (probability sample)) /\
    (forall s : nat,
        (s < 2 ^ m)%nat ->
        Forall (fun sample => state_int sample <> s) result ->
        arr !! s = Some 0).
Proof.
  intros Hall.
  destruct (all_probs_in_range m result Hall) as [arr [Harr Hlen]].
  exists arr. split; [exact Harr|].
  split; [exact Hlen|]. unfold all_probs in Harr. split.
  - intros pre post sample -> Hpost. exact (fill_last_wins _ _ _ _ _ Harr Hpost).
  - intros s Hs Habs. rewrite (fill_untouched _ _ _ _ Harr Habs).
    now apply lookup_np_zeros.
Qed.

Lemma all_probs_last_occurrence_wins_witness :
  Forall (fun sample => (state_int sample < 2 ^ 1)%nat)
         [mkSample 0 (1 / 4); mkSample 0 (1 / 2)] /\
  exists arr : list R,
    all_probs 1 [mkSample 0 (1 / 4); mkSample 0 (1 / 2)] = Ret arr /\
    length arr = (2 ^ 1)%nat /\
    (forall (pre post : list Sample) (sample : Sample),
        [mkSample 0 (1 / 4); mkSample 0 (1 / 2)] = pre ++ sample :: post ->
        Forall (fun later => state_int later <> state_int sample) post ->
        arr !! state_int sample = Some (probability sample)) /\
    (forall s : nat,
        (s < 2 ^ 1)%nat ->
        Forall (fun sample => state_int sample <> s)
               [mkSample 0 (1 / 4); mkSample 0 (1 / 2)] ->
        arr !! s = Some 0).
Proof.
  assert (H : Forall (fun sample => (state_int sample < 2 ^ 1)%nat)
                     [mkSample 0 (1 / 4); mkSample 0 (1 / 2)]).
  { repeat constructor; simpl; lia. }
  split; [exact H|].
  exact (all_probs_last_occurrence_wins 1 _ H).
Defined.

(** ** The dense fill does not renormalise *)

(** C5 fails as stated: a one-sample result of probability 1/4 on one
    evaluation qubit has a positive sum and an in-range state, yet the
    dense array sums to 1/4; the noisy-run normaliser does divide by the
    sum, but returns one entry per sample, not [2^m] entries. *)
Lemma all_probs_sum_not_one :
  Forall (fun sample => (state_int sample < 2 ^ 1)%nat) [mkSample 0 (1 / 4)] /\
  0 < prob_sum [mkSample 0 (1 / 4)] /\
  all_probs 1 [mkSample 0 (1 / 4)] = Ret [1 / 4; 0] /\
  sum [1 / 4; 0] <> 1 /\
  (exists normed : list R,
      noisy_probabilities [mkSample 0 (1 / 4)] = Ret normed /\
      length normed <> (2 ^ 1)%nat).
Proof.
  split; [repeat constructor; simpl; lia|].
  assert (Hs : prob_sum [mkSample 0 (1 / 4)] = 1 / 4).
  { unfold prob_sum. simpl map. rewrite sum_cons, sum_nil. lra. }
  split; [rewrite Hs; lra|].
  split; [reflexivity|].
  split; [rewrite !sum_cons, sum_nil; lra|].
  eexists. split.
  - apply noisy_probabilities_nonzero. rewrite Hs. lra.
  - simpl. lia.
Qed.

(** C5, amended: with pairwise distinct in-range states the dense fill
    returns an array of length [2^m] whose entries sum to the sum of the
    input probabilities, whatever that sum is; dividing by the sum is what
    the noisy-run normaliser does, whose output has one entry per sample
    and sums to 1 when the input sum is positive. *)
Theorem all_probs_keeps_mass_noisy_rescales (m : nat) (result : list Sample) :
  Forall (fun sample => (state_int sample < 2 ^ m)%nat) result ->
  NoDup (map state_int result) ->
  0 < prob_sum result ->
  (exists arr : list R,
      all_probs m result = Ret arr /\
      length arr = (2 ^ m)%nat /\
      sum arr = prob_sum result) /\
  (exists normed : list R,
      noisy_probabilities result = Ret normed /\
      normed = map (fun sample => probability sample / prob_sum result) result /\
      length normed = length result /\
      sum normed = 1).
Proof.
  intros Hall Hnd Hpos. split.
  - destruct (all_probs_in_range m result Hall) as [arr [Harr Hlen]].
    exists arr. split; [exact Harr|]. split; [exact Hlen|].
    unfold all_probs in Harr.
    rewrite (sum_fill_distinct _ _ _ Harr Hnd).
    + unfold np_zeros. rewrite sum_replicate_0. lra.
    + eapply Forall_impl; [exact Hall|]. intros sample Hs.
      now apply lookup_np_zeros.
  - eexists. split; [apply noisy_probabilities_nonzero; lra|].
    split; [reflexivity|]. split; [apply length_map|].
    rewrite <- (map_map probability (fun p => p / prob_sum result)).
    rewrite sum_map_div. fold (prob_sum result). field. lra.
Qed.

Lemma all_probs_keeps_mass_noisy_rescales_witness :
  Forall (fun sample => (state_int sample < 2 ^ 1)%nat)
         [mkSample 0 (1 / 4); mkSample 1 (1 / 4)] /\
  NoDup (map state_int [mkSample 0 (1 / 4); mkSample 1 (1 / 4)]) /\
  0 < prob_sum [mkSample 0 (1 / 4); mkSample 1 (1 / 4)] /\
  (exists arr : list R,
      all_probs 1 [mkSample 0 (1 / 4); mkSample 1 (1 / 4)] = Ret arr /\
      length arr = (2 ^ 1)%nat /\
      sum arr = prob_sum [mkSample 0 (1 / 4); mkSample 1 (1 / 4)]) /\
  (exists normed : list R,
      noisy_probabilities [mkSample 0 (1 / 4); mkSample 1 (1 / 4)] = Ret normed /\
      normed = map (fun sample =>
                      probability sample
                      / prob_sum [mkSample 0 (1 / 4); mkSample 1 (1 / 4)])
                   [mkSample 0 (1 / 4); mkSample 1 (1 / 4)] /\
      length normed = length [mkSample 0 (1 / 4); mkSample 1 (1 / 4)] /\
      sum normed = 1).
Proof.
  assert (Hall : Forall (fun sample => (state_int sample < 2 ^ 1)%nat)
                        [mkSample 0 (1 / 4); mkSample 1 (1 / 4)]).
  { repeat constructor; simpl; lia. }
  assert (Hnd : NoDup (map state_int [mkSample 0 (1 / 4); mkSample 1 (1 / 4)])).
  { simpl. repeat constructor; rewrite ?elem_of_cons, ?elem_of_nil; lia. }
  assert (Hpos : 0 < prob_sum [mkSample 0 (1 / 4); mkSample 1 (1 / 4)]).
  { unfold prob_sum. simpl map. rewrite !sum_cons, sum_nil. lra. }
  split; [exact Hall|]. split; [exact Hnd|]. split; [exact Hpos|].
  exact (all_probs_keeps_mass_noisy_rescales 1 _ Hall Hnd Hpos).
Defined.

(** ** Normalising a result of total probability zero *)

(** C6 fails as stated: the empty result sums to 0 and is normalised to
    the empty list without any error, and a non-empty result of total 0
    is divided by zero. *)
Lemma noisy_probabilities_zero_sum_not_rejected :
  prob_sum [] = 0 /\
  noisy_probabilities [] = Ret [] /\
  prob_sum [mkSample 0 0] = 0 /\
  noisy_probabilities [mkSample 0 0] = Raise ZeroDivisionError.
Proof.
  split; [reflexivity|]. split; [reflexivity|].
  assert (Hs : prob_sum [mkSample 0 0] = 0).
  { unfold prob_sum. simpl map. rewrite sum_cons, sum_nil. lra. }
  split; [exact Hs|].
  unfold noisy_probabilities. rewrite mapM_Py_cons, Hs. unfold truediv.
  destruct (Req_dec_T 0 0) as [_|Hne]; [reflexivity|contradiction].
Qed.

(** C6, amended: there is no check of the total.  When the probabilities
    sum to 0, an empty result is returned as the empty list without error,
    and a non-empty one reaches the division, which raises
    [ZeroDivisionError]. *)
Theorem noisy_probabilities_zero_sum (result : list Sample) :
  prob_sum result = 0 ->
  (result = [] -> noisy_probabilities result = Ret []) /\
  (result <> [] -> noisy_probabilities result = Raise ZeroDivisionError).
Proof.
  intros Hz. split.
  - intros ->. reflexivity.
  - intros Hne. destruct result as [|sample rest]; [contradiction|].
    unfold noisy_probabilities. rewrite mapM_Py_cons, Hz. unfold truediv.
    destruct (Req_dec_T 0 0) as [_|H0]; [reflexivity|contradiction].
Qed.

Lemma noisy_probabilities_zero_sum_witness :
  prob_sum [mkSample 2 0; mkSample 5 0] = 0 /\
  ([mkSample 2 0; mkSample 5 0] = [] ->
   noisy_probabilities [mkSample 2 0; mkSample 5 0] = Ret []) /\
  ([mkSample 2 0; mkSample 5 0] <> [] ->
   noisy_probabilities [mkSample 2 0; mkSample 5 0] = Raise ZeroDivisionError).
Proof.
  assert (Hz : prob_sum [mkSample 2 0; mkSample 5 0] = 0).
  { unfold prob_sum. simpl map. rewrite !sum_cons, sum_nil. lra. }
  split; [exact Hz|].
  exact (noisy_probabilities_zero_sum _ Hz).
Defined.

(** ** The affine map *)

Lemma f64_truediv_nonzero (a b : R) :
  b <> 0 -> f64_truediv a b = Finite (a / b).
Proof.
  intros Hb. unfold f64_truediv.
  destruct (Req_dec_T b 0); [contradiction|reflexivity].
Qed.

Lemma signbit_pos (r : R) : 0 < r -> signbit r = false.
Proof. intros H. unfold signbit. destruct (Rlt_dec r 0); [lra|reflexivity]. Qed.

Lemma signbit_neg (r : R) : r < 0 -> signbit r = true.
Proof. intros H. unfold signbit. destruct (Rlt_dec r 0); [reflexivity|lra]. Qed.

Lemma f64_truediv_zero_pos (a : R) : 0 < a -> f64_truediv a 0 = Inf false.
Proof.
  intros H. unfold f64_truediv.
  destruct (Req_dec_T 0 0) as [_|H0]; [|contradiction].
  destruct (Req_dec_T a 0); [lra|]. now rewrite signbit_pos.
Qed.

Lemma f64_truediv_zero_neg (a : R) : a < 0 -> f64_truediv a 0 = Inf true.
Proof.
  intros H. unfold f64_truediv.
  destruct (Req_dec_T 0 0) as [_|H0]; [|contradiction].
  destruct (Req_dec_T a 0); [lra|]. now rewrite signbit_neg.
Qed.

Lemma f64_truediv_zero_zero (a : R) : a = 0 -> f64_truediv a 0 = NaN.
Proof.
  intros H. unfold f64_truediv.
  destruct (Req_dec_T 0 0) as [_|H0]; [|contradiction].
  destruct (Req_dec_T a 0); [reflexivity|contradiction].
Qed.

Lemma f64_mul_Inf_pos (s : bool) (r : R) :
  0 < r -> f64_mul (Inf s) r = Inf s /\ f64_mul r (Inf s) = Inf s.
Proof.
  intros H. unfold f64_mul.
  destruct (Req_dec_T r 0); [lra|].
  rewrite signbit_pos by exact H. now destruct s.
Qed.

Lemma f64_truediv_Inf_pos (s : bool) (r : R) :
  0 < r -> f64_truediv (Inf s) r = Inf s.
Proof.
  intros H. unfold f64_truediv. rewrite signbit_pos by exact H. now destruct s.
Qed.

Lemma ExpectedFx_nonzero (c f_min f_max a : R) :
  c <> 0 ->
  ExpectedFx c f_min f_max a
  = Ret (((a - 1 / 2) / c + 1 / 2) * (f_max - f_min) + f_min).
Proof.
  intros Hc. unfold ExpectedFx. cbn [f64_sub].
  rewrite f64_truediv_nonzero by exact Hc. reflexivity.
Qed.

(** With [c = 0] the division gives [inf], [-inf] or [nan], and so does
    the whole map: no number and no exception. *)
Lemma ExpectedFx_zero (f_min f_max a : R) :
  exists v : float64,
    ExpectedFx 0 f_min f_max a = Ret v /\ forall r : R, v <> Finite r.
Proof.
  unfold ExpectedFx. cbn [f64_sub].
  eexists. split; [reflexivity|]. intros r.
  destruct (Rtotal_order (a - 1 / 2) 0) as [H|[H|H]].
  - rewrite f64_truediv_zero_neg by exact H. cbn.
    destruct (Req_dec_T (f_max - f_min) 0); discriminate.
  - rewrite f64_truediv_zero_zero by exact H. discriminate.
  - rewrite f64_truediv_zero_pos by exact H. cbn.
    destruct (Req_dec_T (f_max - f_min) 0); discriminate.
Qed.

(** On an increasing domain the sign of [a - 1/2] decides which. *)
Lemma ExpectedFx_zero_increasing (f_min f_max a : R) :
  f_min < f_max ->
  (1 / 2 < a -> ExpectedFx 0 f_min f_max a = Ret (Inf false)) /\
  (a < 1 / 2 -> ExpectedFx 0 f_min f_max a = Ret (Inf true)) /\
  (a = 1 / 2 -> ExpectedFx 0 f_min f_max a = Ret NaN).
Proof.
  intros Hf. unfold ExpectedFx. cbn [f64_sub].
  assert (Hw : 0 < f_max - f_min) by lra.
  repeat split; intros Ha.
  - rewrite f64_truediv_zero_pos by lra. cbn [f64_add].
    now rewrite (proj1 (f64_mul_Inf_pos false _ Hw)).
  - rewrite f64_truediv_zero_neg by lra. cbn [f64_add].
    now rewrite (proj1 (f64_mul_Inf_pos true _ Hw)).
  - rewrite f64_truediv_zero_zero by lra. reflexivity.
Qed.

Lemma Ret_inj {A : Type} (x y : A) : Ret x = Ret y -> x = y.
Proof. intros H. now injection H. Qed.

Lemma Finite_inj (x y : R) : Finite x = Finite y -> x = y.
Proof. intros H. now injection H. Qed.

(** C4 fails as stated: with [c = 1/2] on the unit domain an estimator
    value of 1 is mapped to 3/2, not to 1 (and 0 is mapped to -1/2). *)
Lemma ExpectedFx_half_of_one_is_not_one :
  ExpectedFx (1 / 2) 0 1 1 = Ret (3 / 2) /\
  ExpectedFx (1 / 2) 0 1 1 <> Ret 1 /\
  ExpectedFx (1 / 2) 0 1 0 <> Ret 0.
Proof.
  assert (Hc : 1 / 2 <> 0) by lra.
  rewrite !(ExpectedFx_nonzero _ _ _ _ Hc).
  split; [do 2 f_equal; field|].
  split; intros H; apply Ret_inj, Finite_inj in H; lra.
Qed.

(** C4, amended: with [c = 1/2], [f_min = 0] and [f_max = 1] the map
    [((a - 1/2)/c + 1/2) * (f_max - f_min) + f_min] sends 1/2 to 1/2,
    1 to 3/2 and 0 to -1/2. *)
Theorem ExpectedFx_half_unit_domain :
  ExpectedFx (1 / 2) 0 1 (1 / 2) = Ret (1 / 2) /\
  ExpectedFx (1 / 2) 0 1 1 = Ret (3 / 2) /\
  ExpectedFx (1 / 2) 0 1 0 = Ret (- 1 / 2).
Proof.
  assert (Hc : 1 / 2 <> 0) by lra.
  rewrite !(ExpectedFx_nonzero _ _ _ _ Hc).
  repeat split; do 2 f_equal; field.
Qed.

(** With [c = 1] on the unit domain the map is the identity. *)
Lemma ExpectedFx_one_unit_domain (a : R) : ExpectedFx 1 0 1 a = Ret a.
Proof.
  rewrite ExpectedFx_nonzero by lra. do 2 f_equal. field.
Qed.

(** ** The estimator grid *)

Lemma lookup_map_seq (f : nat -> R) (n i : nat) :
  (i < n)%nat -> map f (seq 0 n) !! i = Some (f i).
Proof.
  intros Hi.
  rewrite nth_lookup_lt by (rewrite length_map, length_seq; exact Hi).
  f_equal.
  rewrite (nth_indep _ 0 (f 0%nat)) by (rewrite length_map, length_seq; exact Hi).
  rewrite map_nth, seq_nth by exact Hi. reflexivity.
Qed.

Lemma lookup_map_seq_Some (f : nat -> R) (n i : nat) (x : R) :
  map f (seq 0 n) !! i = Some x -> (i < n)%nat /\ x = f i.
Proof.
  intros H. assert (Hi : (i < n)%nat).
  { apply lookup_lt_Some in H. now rewrite length_map, length_seq in H. }
  split; [exact Hi|]. rewrite lookup_map_seq in H by exact Hi. now injection H.
Qed.

Lemma pow2_R_pos (m : nat) : 0 < 2 ^ m.
Proof. apply pow_lt. lra. Qed.

Lemma pow2_R_half (m : nat) : (1 <= m)%nat -> 2 ^ m = 2 * INR (2 ^ (m - 1)).
Proof.
  intros Hm. rewrite pow_INR. simpl INR.
  destruct m as [|m]; [lia|].
  replace (S m - 1)%nat with m by lia. simpl. replace (1 + 1) with 2 by lra.
  reflexivity.
Qed.

(** The angles of the grid lie in the first quadrant. *)
Lemma angle_first_quadrant (m i : nat) :
  (1 <= m)%nat -> (i <= 2 ^ (m - 1))%nat ->
  0 <= INR i * PI / 2 ^ m <= PI / 2.
Proof.
  intros Hm Hi. pose proof PI_RGT_0 as Hpi. pose proof (pow2_R_pos m) as Hp.
  pose proof (pos_INR i) as H0. apply le_INR in Hi.
  rewrite (pow2_R_half m Hm) in *.
  set (P := INR (2 ^ (m - 1))) in *.
  split.
  - apply Rmult_le_reg_r with (2 * P); [exact Hp|].
    unfold Rdiv. rewrite Rmult_assoc, Rinv_l by lra. nra.
  - apply Rmult_le_reg_r with (2 * P); [exact Hp|].
    unfold Rdiv at 1. rewrite Rmult_assoc, Rinv_l by lra. nra.
Qed.

Lemma angle_lt (m i j : nat) :
  (i < j)%nat -> INR i * PI / 2 ^ m < INR j * PI / 2 ^ m.
Proof.
  intros Hij. pose proof PI_RGT_0 as Hpi. pose proof (pow2_R_pos m) as Hp.
  apply lt_INR in Hij. unfold Rdiv.
  apply Rmult_lt_compat_r; [now apply Rinv_0_lt_compat|nra].
Qed.

Lemma a_tilde_lt (m i j : nat) :
  (1 <= m)%nat -> (i < j)%nat -> (j <= 2 ^ (m - 1))%nat ->
  a_tilde m i < a_tilde m j.
Proof.
  intros Hm Hij Hj. unfold a_tilde.
  pose proof (angle_first_quadrant m i Hm ltac:(lia)) as [Hi0 Hi1].
  pose proof (angle_first_quadrant m j Hm Hj) as [Hj0 Hj1].
  pose proof (angle_lt m i j Hij) as Hlt.
  pose proof PI_RGT_0 as Hpi.
  assert (Hs : sin (INR i * PI / 2 ^ m) < sin (INR j * PI / 2 ^ m)).
  { apply sin_increasing_1; lra. }
  assert (Hs0 : 0 <= sin (INR i * PI / 2 ^ m)).
  { apply sin_ge_0; lra. }
  simpl. nra.
Qed.

Lemma a_tilde_range (m i : nat) : 0 <= a_tilde m i <= 1.
Proof.
  unfold a_tilde. pose proof (SIN_bound (INR i * PI / 2 ^ m)) as [Hl Hu].
  simpl. nra.
Qed.

(** ** Rounding *)

Lemma rint_mono (x y : R) : x <= y -> rint x <= rint y.
Proof.
  intros Hxy. unfold rint.
  destruct (base_Int_part x) as [Hx1 Hx2]. destruct (base_Int_part y) as [Hy1 Hy2].
  set (n := Int_part x) in *. set (n' := Int_part y) in *.
  assert (Hn : (n <= n')%Z).
  { apply Zlt_succ_le, lt_IZR. rewrite succ_IZR. lra. }
  destruct (Z.eq_dec n n') as [<-|Hne].
  - rewrite plus_IZR.
    destruct (Rlt_dec (x - IZR n) (1 / 2)), (Rlt_dec (1 / 2) (x - IZR n)),
      (Rlt_dec (y - IZR n) (1 / 2)), (Rlt_dec (1 / 2) (y - IZR n)),
      (Z.even n); lra.
  - assert (Hstep : IZR n + 1 <= IZR n').
    { rewrite <- succ_IZR. apply IZR_le. lia. }
    rewrite !plus_IZR.
    destruct (Rlt_dec (x - IZR n) (1 / 2)), (Rlt_dec (1 / 2) (x - IZR n)),
      (Rlt_dec (y - IZR n') (1 / 2)), (Rlt_dec (1 / 2) (y - IZR n')),
      (Z.even n), (Z.even n'); lra.
Qed.

Lemma rint_IZR (z : Z) : rint (IZR z) = IZR z.
Proof.
  unfold rint. rewrite <- (Int_part_spec (IZR z) z) by lra.
  destruct (Rlt_dec (IZR z - IZR z) (1 / 2)); [reflexivity|lra].
Qed.

Lemma rint_below_half (v : R) : 0 <= v < 1 / 2 -> rint v = 0.
Proof.
  intros [H0 H1]. unfold rint.
  rewrite <- (Int_part_spec v 0) by lra.
  destruct (Rlt_dec (v - 0) (1 / 2)); [reflexivity|lra].
Qed.

Lemma pow10_pos (d : nat) : 0 < 10 ^ d.
Proof. apply pow_lt. lra. Qed.

Lemma np_round_mono (x y : R) (d : nat) : x <= y -> np_round x d <= np_round y d.
Proof.
  intros Hxy. unfold np_round, Rdiv. pose proof (pow10_pos d) as Hp.
  apply Rmult_le_compat_r; [left; now apply Rinv_0_lt_compat|].
  apply rint_mono. nra.
Qed.

Lemma np_round_3_range (x : R) : 0 <= x <= 1 -> 0 <= np_round x 3 <= 1.
Proof.
  intros [H0 H1].
  assert (E0 : np_round 0 3 = 0).
  { unfold np_round. rewrite Rmult_0_l, (rint_IZR 0). unfold Rdiv. apply Rmult_0_l. }
  assert (E1 : np_round 1 3 = 1).
  { unfold np_round. replace (1 * 10 ^ 3) with (IZR 1000) by (simpl; lra).
    rewrite rint_IZR. simpl. lra. }
  pose proof (np_round_mono 0 x 3 H0) as Hlo.
  pose proof (np_round_mono x 1 3 H1) as Hhi.
  lra.
Qed.

Lemma lookup_a_tildes (m k : nat) :
  (k <= 2 ^ (m - 1))%nat -> a_tildes m !! k = Some (a_tilde m k).
Proof. intros Hk. unfold a_tildes. apply lookup_map_seq. lia. Qed.

Lemma lookup_p_tilde (m k : nat) :
  (k <= 2 ^ (m - 1))%nat -> p_tilde m !! k = Some (np_round (a_tilde m k) 3).
Proof.
  intros Hk. unfold p_tilde.
  apply (lookup_map_seq (fun i => np_round (a_tilde m i) 3)). lia.
Qed.

Lemma length_a_tildes (m : nat) : length (a_tildes m) = (2 ^ (m - 1) + 1)%nat.
Proof. unfold a_tildes. now rewrite length_map, length_seq. Qed.

Lemma length_p_tilde (m : nat) : length (p_tilde m) = (2 ^ (m - 1) + 1)%nat.
Proof. unfold p_tilde. now rewrite length_map, length_seq. Qed.

(** With eight evaluation qubits the first grid point above zero is below
    0.0005 and rounds to zero. *)
Lemma a_tilde_8_1_small : 0 <= a_tilde 8 1 * 10 ^ 3 < 1 / 2.
Proof.
  unfold a_tilde. pose proof PI_RGT_0 as Hpi. pose proof PI_4 as Hpi4.
  replace (INR 1 * PI / 2 ^ 8) with (PI / 256) by (simpl; lra).
  assert (Hx : 0 < PI / 256) by lra.
  pose proof (sin_lt_x _ Hx) as Hlt.
  assert (Hs0 : 0 <= sin (PI / 256)) by (apply sin_ge_0; lra).
  simpl. nra.
Qed.

(** C3 fails as stated on the T-bill grid, which rounds to three decimals:
    with eight evaluation qubits its entries 0 and 1 are both 0. *)
Lemma p_tilde_8_not_strictly_increasing :
  p_tilde 8 !! 0%nat = Some 0 /\
  p_tilde 8 !! 1%nat = Some 0 /\
  ~ (exists x y : R,
        p_tilde 8 !! 0%nat = Some x /\ p_tilde 8 !! 1%nat = Some y /\ x < y).
Proof.
  assert (H0 : p_tilde 8 !! 0%nat = Some 0).
  { rewrite lookup_p_tilde by (simpl; lia). f_equal.
    unfold np_round, a_tilde. replace (INR 0 * PI / 2 ^ 8) with 0 by (simpl; lra).
    rewrite sin_0. replace (0 ^ 2 * 10 ^ 3) with (IZR 0) by (simpl; lra).
    rewrite rint_IZR. unfold Rdiv. apply Rmult_0_l. }
  assert (H1 : p_tilde 8 !! 1%nat = Some 0).
  { rewrite lookup_p_tilde by (simpl; lia). f_equal.
    unfold np_round. rewrite (rint_below_half _ a_tilde_8_1_small).
    unfold Rdiv. apply Rmult_0_l. }
  split; [exact H0|]. split; [exact H1|].
  intros (x & y & Hx & Hy & Hlt).
  rewrite H0 in Hx. rewrite H1 in Hy.
  injection Hx as <-. injection Hy as <-. lra.
Qed.

(** C3, amended: for [m >= 1] the unrounded grid [a_tildes] is strictly
    increasing in the index, and the grid [p_tilde], rounded to three
    decimals, is non-decreasing in the index. *)
Theorem a_tildes_increasing_p_tilde_monotone (m i j : nat) (x y x' y' : R) :
  (1 <= m)%nat -> (i < j)%nat ->
  a_tildes m !! i = Some x -> a_tildes m !! j = Some y ->
  p_tilde m !! i = Some x' -> p_tilde m !! j = Some y' ->
  x < y /\ x' <= y'.
Proof.
  intros Hm Hij Hx Hy Hx' Hy'.
  apply lookup_map_seq_Some in Hx as [Hi ->].
  apply lookup_map_seq_Some in Hy as [Hj ->].
  apply (lookup_map_seq_Some (fun i => np_round (a_tilde m i) 3)) in Hx' as [_ ->].
  apply (lookup_map_seq_Some (fun i => np_round (a_tilde m i) 3)) in Hy' as [_ ->].
  assert (Hlt : a_tilde m i < a_tilde m j) by (apply a_tilde_lt; lia).
  split; [exact Hlt|]. apply np_round_mono. lra.
Qed.

Lemma a_tildes_increasing_p_tilde_monotone_witness :
  a_tilde 2 1 < a_tilde 2 2 /\ np_round (a_tilde 2 1) 3 <= np_round (a_tilde 2 2) 3.
Proof.
  apply (a_tildes_increasing_p_tilde_monotone 2 1 2).
  - lia.
  - lia.
  - apply lookup_a_tildes. simpl. lia.
  - apply lookup_a_tildes. simpl. lia.
  - apply lookup_p_tilde. simpl. lia.
  - apply lookup_p_tilde. simpl. lia.
Defined.

(** C9: for [m >= 1] and [k] in [0, 2^(m-1)] the grid value at index [k]
    is [sin^2(k*pi/2^m)] and lies in [0, 1]; so does its rounded
    counterpart on the T-bill grid. *)
Theorem a_tildes_in_unit_interval (m k : nat) :
  (1 <= m)%nat -> (k <= 2 ^ (m - 1))%nat ->
  exists x y : R,
    a_tildes m !! k = Some x /\
    x = sin (INR k * PI / 2 ^ m) ^ 2 /\
    0 <= x <= 1 /\
    p_tilde m !! k = Some y /\
    0 <= y <= 1.
Proof.
  intros Hm Hk. exists (a_tilde m k), (np_round (a_tilde m k) 3).
  split; [now apply lookup_a_tildes|].
  split; [reflexivity|].
  split; [apply a_tilde_range|].
  split; [now apply lookup_p_tilde|].
  apply np_round_3_range, a_tilde_range.
Qed.

Lemma a_tildes_in_unit_interval_witness :
  (1 <= 3)%nat /\ (4 <= 2 ^ (3 - 1))%nat /\
  exists x y : R,
    a_tildes 3 !! 4%nat = Some x /\
    x = sin (INR 4 * PI / 2 ^ 3) ^ 2 /\
    0 <= x <= 1 /\
    p_tilde 3 !! 4%nat = Some y /\
    0 <= y <= 1.
Proof.
  split; [lia|]. split; [simpl; lia|].
  apply (a_tildes_in_unit_interval 3 4); simpl; lia.
Defined.

(** ** Arg-max *)

Lemma argmax_from_spec (rest : list R) :
  forall (pre : list R) (best : nat) (vbest : R),
    (best < length pre)%nat ->
    nth best pre 0 = vbest ->
    (forall j, (j < length pre)%nat -> nth j pre 0 <= vbest) ->
    (forall j, (j < best)%nat -> nth j pre 0 < vbest) ->
    let l := pre ++ rest in
    let k := argmax_from best vbest (length pre) rest in
    (k < length l)%nat /\
    (forall j, (j < length l)%nat -> nth j l 0 <= nth k l 0) /\
    (forall j, (j < k)%nat -> nth j l 0 < nth k l 0).
Proof.
  induction rest as [|x rest IH]; intros pre best vbest Hb Hv Hle Hlt; simpl.
  - rewrite app_nil_r, Hv. auto.
  - assert (Hlen : length (pre ++ [x]) = S (length pre)).
    { rewrite length_app. simpl. lia. }
    assert (Hx : nth (length pre) (pre ++ [x]) 0 = x).
    { rewrite app_nth2 by lia. now rewrite Nat.sub_diag. }
    replace (pre ++ x :: rest) with ((pre ++ [x]) ++ rest)
      by (now rewrite <- app_assoc).
    rewrite <- Hlen.
    destruct (Rlt_dec vbest x) as [Hbx|Hbx].
    + apply IH.
      * lia.
      * exact Hx.
      * intros j Hj. destruct (Nat.eq_dec j (length pre)) as [->|Hne].
        -- rewrite Hx. lra.
        -- rewrite app_nth1 by lia. specialize (Hle j ltac:(lia)). lra.
      * intros j Hj. rewrite app_nth1 by lia. specialize (Hle j Hj). lra.
    + apply IH.
      * lia.
      * now rewrite app_nth1 by lia.
      * intros j Hj. destruct (Nat.eq_dec j (length pre)) as [->|Hne].
        -- rewrite Hx. lra.
        -- rewrite app_nth1 by lia. apply Hle. lia.
      * intros j Hj. rewrite app_nth1 by lia. now apply Hlt.
Qed.

(** [np.argmax] returns the first index that carries the maximum. *)
Lemma np_argmax_first_max (l : list R) :
  l <> [] ->
  exists k : nat,
    np_argmax l = Ret k /\
    (k < length l)%nat /\
    (forall j, (j < length l)%nat -> nth j l 0 <= nth k l 0) /\
    (forall j, (j < k)%nat -> nth j l 0 < nth k l 0).
Proof.
  intros Hne. destruct l as [|x rest]; [contradiction|].
  exists (argmax_from 0 x 1 rest). split; [reflexivity|].
  apply (argmax_from_spec rest [x] 0%nat x).
  - simpl. lia.
  - reflexivity.
  - intros j Hj. simpl in Hj. replace j with 0%nat by lia. simpl. lra.
  - intros j Hj. lia.
Qed.

Lemma lookup_nth (l : list R) (j : nat) (p : R) :
  l !! j = Some p -> (j < length l)%nat /\ nth j l 0 = p.
Proof.
  intros H. split; [now apply lookup_lt_Some in H|]. now apply nth_lookup_Some.
Qed.

(** C7: when two folded bins [i < j] are tied for the maximal probability,
    the read-out selects the grid value of an index [k <= i] that carries
    the maximum and has only strictly smaller bins before it, that is, of
    the tied bin with the lowest index; its grid value is the lowest among
    the tied bins.  The same index is used on the rounded T-bill grid. *)
Theorem lucky_a_tilde_lowest_tied_bin
        (m : nat) (folded : list R) (i j : nat) (pmax : R) :
  (1 <= m)%nat -> length folded = (2 ^ (m - 1) + 1)%nat ->
  (i < j)%nat -> folded !! i = Some pmax -> folded !! j = Some pmax ->
  (forall t p, folded !! t = Some p -> p <= pmax) ->
  exists k : nat,
    (k <= i)%nat /\
    folded !! k = Some pmax /\
    (forall t p, (t < k)%nat -> folded !! t = Some p -> p < pmax) /\
    np_argmax folded = Ret k /\
    lucky_a_tilde m folded = Ret (a_tilde m k) /\
    max_freq m folded = Ret (np_round (a_tilde m k) 3) /\
    a_tilde m k <= a_tilde m i /\
    a_tilde m k < a_tilde m j.
Proof.
  intros Hm Hlen Hij Hi Hj Hmax.
  apply lookup_nth in Hi as [Hil Hi]. apply lookup_nth in Hj as [Hjl Hj].
  assert (Hne : folded <> []) by (intros ->; simpl in Hil; lia).
  destruct (np_argmax_first_max folded Hne) as (k & Hk & Hkl & Hge & Hlt).
  assert (Hkv : nth k folded 0 = pmax).
  { apply Rle_antisym.
    - apply (Hmax k). now apply nth_lookup_lt.
    - rewrite <- Hi. now apply Hge. }
  assert (Hki : (k <= i)%nat).
  { destruct (le_lt_dec k i) as [Hle|Hgt]; [exact Hle|].
    specialize (Hlt i Hgt). lra. }
  exists k. split; [exact Hki|].
  split; [rewrite <- Hkv; now apply nth_lookup_lt|].
  split.
  { intros t p Ht Hp. apply lookup_nth in Hp as [_ <-]. rewrite <- Hkv.
    now apply Hlt. }
  split; [exact Hk|].
  assert (Hgrid : (k <= 2 ^ (m - 1))%nat) by lia.
  split.
  { unfold lucky_a_tilde. rewrite Hk. simpl. unfold getitem.
    now rewrite lookup_a_tildes. }
  split.
  { unfold max_freq. rewrite Hk. simpl. unfold getitem.
    now rewrite lookup_p_tilde. }
  split.
  - destruct (Nat.eq_dec k i) as [->|Hneq]; [lra|].
    left. apply a_tilde_lt; lia.
  - apply a_tilde_lt; lia.
Qed.

Lemma lucky_a_tilde_lowest_tied_bin_witness :
  exists k : nat,
    (k <= 1)%nat /\
    [1 / 4; 3 / 8; 3 / 8] !! k = Some (3 / 8) /\
    (forall t p, (t < k)%nat -> [1 / 4; 3 / 8; 3 / 8] !! t = Some p -> p < 3 / 8) /\
    np_argmax [1 / 4; 3 / 8; 3 / 8] = Ret k /\
    lucky_a_tilde 2 [1 / 4; 3 / 8; 3 / 8] = Ret (a_tilde 2 k) /\
    max_freq 2 [1 / 4; 3 / 8; 3 / 8] = Ret (np_round (a_tilde 2 k) 3) /\
    a_tilde 2 k <= a_tilde 2 1 /\
    a_tilde 2 k < a_tilde 2 2.
Proof.
  apply (lucky_a_tilde_lowest_tied_bin 2 [1 / 4; 3 / 8; 3 / 8] 1 2 (3 / 8)).
  - lia.
  - reflexivity.
  - lia.
  - reflexivity.
  - reflexivity.
  - intros [|[|[|t]]] p H; simpl in H; try discriminate;
      injection H as <-; lra.
Defined.

Example np_argmax_tie : np_argmax [1 / 4; 3 / 8; 3 / 8] = Ret 1%nat.
Proof.
  simpl. destruct (Rlt_dec (1 / 4) (3 / 8)) as [_|H]; [|lra].
  destruct (Rlt_dec (3 / 8) (3 / 8)) as [H|_]; [lra|]. reflexivity.
Qed.

(** ** The whole cell *)

Lemma all_probs_Ret_or_IndexError (m : nat) (result : list Sample) :
  (exists arr : list R, all_probs m result = Ret arr) \/
  all_probs m result = Raise IndexError.
Proof.
  destruct (Forall_Exists_dec
              (fun sample => (state_int sample < 2 ^ m)%nat)
              (fun sample => (2 ^ m <= state_int sample)%nat)
              (fun sample =>
                 match le_lt_dec (2 ^ m) (state_int sample) with
                 | left Hge => right Hge
                 | right Hlt => left Hlt
                 end) result)
    as [Hall|Hex].
  - left. destruct (all_probs_in_range m result Hall) as [arr [Harr _]].
    now exists arr.
  - right. now apply all_probs_out_of_range.
Qed.

(** On a positive number of qubits and in-range states every stage
    succeeds. *)
Lemma postprocess_runs (nb_eval_qbits : Z) (result : list Sample) :
  (0 < nb_eval_qbits)%Z ->
  Forall (fun sample => (state_int sample < 2 ^ Z.to_nat nb_eval_qbits)%nat) result ->
  exists (arr : list R) (k : nat),
    all_probs (Z.to_nat nb_eval_qbits) result = Ret arr /\
    np_argmax (folded_bins (Z.to_nat nb_eval_qbits) arr) = Ret k /\
    postprocess nb_eval_qbits result
    = Ret (mkDecoded (a_tildes (Z.to_nat nb_eval_qbits))
                     (folded_bins (Z.to_nat nb_eval_qbits) arr)
                     (a_tilde (Z.to_nat nb_eval_qbits) k)).
Proof.
  intros Hpos Hall.
  destruct nb_eval_qbits as [|p|p]; try lia.
  unfold postprocess.
  set (m := Z.to_nat (Z.pos p)) in *.
  assert (Hm : (1 <= m)%nat) by (unfold m; lia).
  destruct (all_probs_in_range m result Hall) as [arr [Harr Hlen]].
  pose proof (folded_bins_length m arr) as Hfl.
  assert (Hne : folded_bins m arr <> []).
  { intros E. rewrite E in Hfl. simpl in Hfl. lia. }
  destruct (np_argmax_first_max _ Hne) as (k & Hk & Hkl & _).
  exists arr, k. split; [exact Harr|]. split; [exact Hk|].
  rewrite Harr. simpl. rewrite (probs_closed_form m arr Hm Hlen). simpl.
  unfold lucky_a_tilde. rewrite Hk. simpl. unfold getitem.
  rewrite lookup_a_tildes by lia. reflexivity.
Qed.

(** C8 fails as stated: a negative probability is folded like any other
    value, and a scale [c = 2] outside (0, 1] is used as given. *)
Lemma postprocess_accepts_negative_probability :
  (exists d : Decoded,
      postprocess 1 [mkSample 0 (- 1 / 2)] = Ret d /\
      dec_probs d = [- 1 / 2; 0]) /\
  ExpectedFx 2 0 1 (1 / 2) = Ret (1 / 2).
Proof.
  split.
  - destruct (postprocess_runs 1 [mkSample 0 (- 1 / 2)]) as (arr & k & Ha & _ & Hp).
    + lia.
    + repeat constructor; simpl; lia.
    + eexists. split; [exact Hp|].
      change (all_probs 1 [mkSample 0 (- 1 / 2)]) with (Ret [- 1 / 2; 0]) in Ha.
      apply Ret_inj in Ha. subst arr. reflexivity.
  - rewrite ExpectedFx_nonzero by lra. do 2 f_equal. field.
Qed.

(** C8, amended: the cell validates nothing itself.  With a positive
    number of qubits, in-range states and [c <> 0] it returns a result and
    a mapped value whatever the probabilities and whatever the size of
    [c]; the only failures are the interpreter's: [IndexError] for a state
    of [2^m] or more and [TypeError] (or that [IndexError]) for a number
    of qubits of 0 or less.  Even [c = 0] is not refused: the division is
    numpy's, nothing is raised, and the value returned is [inf], [-inf]
    or [nan]. *)
Theorem postprocess_fails_only_in_interpreter
        (nb_eval_qbits : Z) (result : list Sample) (c f_min f_max : R) :
  ((0 < nb_eval_qbits)%Z ->
   Forall (fun sample => (state_int sample < 2 ^ Z.to_nat nb_eval_qbits)%nat) result ->
   c <> 0 ->
   exists (d : Decoded) (v : R),
     postprocess nb_eval_qbits result = Ret d /\
     ExpectedFx c f_min f_max (dec_estimate d) = Ret v) /\
  ((0 < nb_eval_qbits)%Z ->
   Exists (fun sample => (2 ^ Z.to_nat nb_eval_qbits <= state_int sample)%nat) result ->
   postprocess nb_eval_qbits result = Raise IndexError) /\
  ((nb_eval_qbits <= 0)%Z ->
   postprocess nb_eval_qbits result = Raise TypeError \/
   postprocess nb_eval_qbits result = Raise IndexError) /\
  (forall a : R,
      exists v : float64,
        ExpectedFx 0 f_min f_max a = Ret v /\ forall r : R, v <> Finite r).
Proof.
  split; [|split; [|split]].
  - intros Hpos Hall Hc.
    destruct (postprocess_runs nb_eval_qbits result Hpos Hall) as (arr & k & _ & _ & Hp).
    eexists. eexists. split; [exact Hp|]. now apply ExpectedFx_nonzero.
  - intros Hpos Hex. destruct nb_eval_qbits as [|p|p]; try lia.
    unfold postprocess. now rewrite all_probs_out_of_range.
  - intros Hle. destruct nb_eval_qbits as [|p|p]; try lia.
    + unfold postprocess.
      destruct (all_probs_Ret_or_IndexError 0 result) as [[arr ->]| ->]; simpl; auto.
    + now left.
  - intros a. apply ExpectedFx_zero.
Qed.

Lemma postprocess_fails_only_in_interpreter_witness :
  exists (d : Decoded) (v : R),
    postprocess 2 [mkSample 1 (- 1 / 4); mkSample 3 (5 / 4)] = Ret d /\
    ExpectedFx 2 0 1 (dec_estimate d) = Ret v.
Proof.
  apply (postprocess_fails_only_in_interpreter
           2 [mkSample 1 (- 1 / 4); mkSample 3 (5 / 4)] 2 0 1).
  - lia.
  - repeat constructor; simpl; lia.
  - lra.
Defined.

(** ** Instances of the folding theorems *)

Lemma probs_folds_mirror_pairs_witness :
  (1 <= 2)%nat /\
  length [1 / 8; 1 / 4; 1 / 2; 1 / 8] = (2 ^ 2)%nat /\
  exists folded : list R,
    probs 2 [1 / 8; 1 / 4; 1 / 2; 1 / 8] = Ret folded /\
    length folded = (2 ^ (2 - 1) + 1)%nat /\
    folded !! 0%nat = [1 / 8; 1 / 4; 1 / 2; 1 / 8] !! 0%nat /\
    (forall k : nat, (1 <= k <= 2 ^ (2 - 1) - 1)%nat ->
       exists a b : R,
         [1 / 8; 1 / 4; 1 / 2; 1 / 8] !! k = Some a /\
         [1 / 8; 1 / 4; 1 / 2; 1 / 8] !! (2 ^ 2 - k)%nat = Some b /\
         folded !! k = Some (a + b)) /\
    folded !! (2 ^ (2 - 1))%nat = [1 / 8; 1 / 4; 1 / 2; 1 / 8] !! (2 ^ (2 - 1))%nat.
Proof.
  split; [lia|]. split; [reflexivity|].
  apply (probs_folds_mirror_pairs 2 [1 / 8; 1 / 4; 1 / 2; 1 / 8]);
    [lia|reflexivity].
Defined.

Example probs_2 :
  probs 2 [1 / 8; 1 / 4; 1 / 2; 1 / 8] = Ret [1 / 8; 1 / 4 + 1 / 8; 1 / 2].
Proof. now rewrite probs_closed_form by (try lia; reflexivity). Qed.

Lemma probs_conserves_mass_witness :
  (1 <= 2)%nat /\
  length [1 / 8; 1 / 4; 1 / 2; 1 / 8] = (2 ^ 2)%nat /\
  exists folded : list R,
    probs 2 [1 / 8; 1 / 4; 1 / 2; 1 / 8] = Ret folded /\
    sum folded = sum [1 / 8; 1 / 4; 1 / 2; 1 / 8] /\
    (sum [1 / 8; 1 / 4; 1 / 2; 1 / 8] = 1 -> sum folded = 1).
Proof.
  split; [lia|]. split; [reflexivity|].
  apply (probs_conserves_mass 2 [1 / 8; 1 / 4; 1 / 2; 1 / 8]);
    [lia|reflexivity].
Defined.

(** The T-bill names denote the same computation, so the folding results
    above hold for [freqs] as they stand. *)
Lemma freqs_closed_form (m : nat) (dense : list R) :
  (1 <= m)%nat -> length dense = (2 ^ m)%nat ->
  freqs m dense = Ret (folded_bins m dense).
Proof. intros Hm Hlen. unfold freqs. now apply probs_closed_form. Qed.

(** ** A run of the whole cell

    Three evaluation qubits, all the mass on outcome 4: the last bin holds
    probability 1 and the estimate is [sin^2(4*pi/8) = 1]. *)

Lemma a_tilde_3_4 : a_tilde 3 4 = 1.
Proof.
  unfold a_tilde. replace (INR 4 * PI / 2 ^ 3) with (PI / 2) by (simpl; field).
  rewrite sin_PI2. simpl. lra.
Qed.

Lemma bind_Ret {A B : Type} (x : A) (f : A -> Py B) : (Ret x ≫= f) = f x.
Proof. reflexivity. Qed.

Example np_argmax_peak : np_argmax [0; 0 + 0; 0 + 0; 0 + 0; 1] = Ret 4%nat.
Proof.
  unfold np_argmax, argmax_from.
  repeat match goal with
         | |- context [Rlt_dec ?a ?b] => destruct (Rlt_dec a b); try lra
         end.
  reflexivity.
Qed.

Example postprocess_peak_at_middle :
  postprocess 3 [mkSample 4 1]
  = Ret (mkDecoded (a_tildes 3) [0; 0 + 0; 0 + 0; 0 + 0; 1] (a_tilde 3 4))
  /\ a_tilde 3 4 = 1.
Proof.
  split; [|exact a_tilde_3_4].
  assert (H1 : all_probs 3 [mkSample 4 1] = Ret [0; 0; 0; 0; 1; 0; 0; 0])
    by reflexivity.
  assert (H2 : probs 3 [0; 0; 0; 0; 1; 0; 0; 0] = Ret [0; 0 + 0; 0 + 0; 0 + 0; 1])
    by (rewrite probs_closed_form; [reflexivity|lia|reflexivity]).
  assert (H3 : lucky_a_tilde 3 [0; 0 + 0; 0 + 0; 0 + 0; 1] = Ret (a_tilde 3 4)).
  { unfold lucky_a_tilde. rewrite np_argmax_peak, bind_Ret. unfold getitem.
    rewrite lookup_a_tildes by (simpl; lia). reflexivity. }
  unfold postprocess. change (Z.to_nat 3) with 3%nat.
  rewrite H1, bind_Ret, H2, bind_Ret, H3, bind_Ret. reflexivity.
Qed.

(** * Further properties of the notebooks' code *)

(** ** Binning *)

Lemma fold_left_Rmin_spec (l : list R) :
  forall acc : R,
    fold_left Rmin l acc <= acc /\
    Forall (fun v => fold_left Rmin l acc <= v) l.
Proof.
  induction l as [|x l IH]; intros acc; simpl.
  - split; [lra|constructor].
  - destruct (IH (Rmin acc x)) as [Hacc Hall].
    pose proof (Rmin_l acc x). pose proof (Rmin_r acc x).
    split; [lra|]. constructor; [lra|exact Hall].
Qed.

Lemma fold_left_Rmax_spec (l : list R) :
  forall acc : R,
    acc <= fold_left Rmax l acc /\
    Forall (fun v => v <= fold_left Rmax l acc) l.
Proof.
  induction l as [|x l IH]; intros acc; simpl.
  - split; [lra|constructor].
  - destruct (IH (Rmax acc x)) as [Hacc Hall].
    pose proof (Rmax_l acc x). pose proof (Rmax_r acc x).
    split; [lra|]. constructor; [lra|exact Hall].
Qed.

Lemma py_min_max_bounds (array : list R) (lo hi : R) :
  py_min array = Ret lo -> py_max array = Ret hi ->
  lo <= hi /\ Forall (fun v => lo <= v <= hi) array.
Proof.
  destruct array as [|x rest]; [discriminate|]. simpl.
  intros Hlo Hhi. apply Ret_inj in Hlo. apply Ret_inj in Hhi. subst lo hi.
  destruct (fold_left_Rmin_spec rest x) as [Hm1 Hm2].
  destruct (fold_left_Rmax_spec rest x) as [HM1 HM2].
  split; [lra|]. constructor; [lra|].
  rewrite Forall_forall in *. intros v Hv.
  specialize (Hm2 v Hv). specialize (HM2 v Hv). simpl in *. lra.
Qed.

Lemma count_value_cons (bp counts : list R) (v : R) (i : nat) (rest : list nat) :
  count_value bp counts v (i :: rest)
  = (b ← getitem bp (length bp - 1 - i);
     if Rge_dec v b then
       old ← getitem counts (length counts - 1 - i);
       setitem counts (length counts - 1 - i) (old + 1)
     else count_value bp counts v rest).
Proof. reflexivity. Qed.

(** The scan stops at the highest breakpoint that the value reaches. *)
Lemma count_value_scan (bp counts : list R) (v : R) (n : nat) :
  length bp = n -> length counts = n ->
  forall k : nat,
    (k <= n)%nat ->
    (forall idx, (k <= idx < n)%nat -> v < nth idx bp 0) ->
    (exists j : nat,
        (j < k)%nat /\ nth j bp 0 <= v /\
        (forall idx, (j < idx < n)%nat -> v < nth idx bp 0) /\
        count_value bp counts v (seq (n - k) k)
        = Ret (<[j := nth j counts 0 + 1]> counts))
    \/ ((forall idx, (idx < n)%nat -> v < nth idx bp 0) /\
        count_value bp counts v (seq (n - k) k) = Ret counts).
Proof.
  intros Hbp Hcn. induction k as [|k IH]; intros Hk Habove.
  - right. split; [|reflexivity]. intros idx Hidx. apply Habove. lia.
  - replace (seq (n - S k) (S k)) with ((n - S k)%nat :: seq (n - k) k)
      by (simpl; do 2 f_equal; lia).
    rewrite count_value_cons, Hbp, Hcn.
    replace (n - 1 - (n - S k))%nat with k by lia.
    rewrite (getitem_lt bp k) by lia. rewrite bind_Ret.
    destruct (Rge_dec v (nth k bp 0)) as [Hge|Hlt].
    + left. exists k. split; [lia|]. split; [lra|].
      split; [intros idx Hidx; apply Habove; lia|].
      rewrite (getitem_lt counts k) by lia. rewrite bind_Ret.
      apply setitem_lt. lia.
    + destruct IH as [(j & Hj & Hle & Hab & Hrun)|[Hall Hrun]].
      * lia.
      * intros idx Hidx. destruct (Nat.eq_dec idx k) as [->|Hne]; [lra|].
        apply Habove. lia.
      * left. exists j. split; [lia|]. auto.
      * right. auto.
Qed.

Lemma nth_np_linspace (lo hi : R) (n j : nat) :
  (j < n)%nat ->
  nth j (np_linspace lo hi n) 0 = lo + INR j * ((hi - lo) / INR n).
Proof.
  intros Hj. unfold np_linspace.
  transitivity (INR j * ((hi - lo) / INR n) + lo); [|lra].
  apply nth_lookup_Some.
  now apply (lookup_map_seq (fun i => INR i * ((hi - lo) / INR n) + lo)).
Qed.

Lemma nth_insert (l : list R) (i j : nat) (x : R) :
  (i < length l)%nat ->
  nth j (<[i:=x]> l) 0 = if decide (j = i) then x else nth j l 0.
Proof.
  intros Hi. rewrite !nth_lookup. destruct (decide (j = i)) as [->|Hne].
  - now rewrite list_lookup_insert_eq.
  - now rewrite list_lookup_insert_ne by congruence.
Qed.

Lemma bin_width_nonneg (lo hi : R) (n : nat) : lo <= hi -> 0 <= (hi - lo) / INR n.
Proof.
  intros Hle. destruct n as [|n].
  - simpl. unfold Rdiv. rewrite Rinv_0. lra.
  - apply Rmult_le_pos; [lra|]. left. apply Rinv_0_lt_compat.
    apply lt_0_INR. lia.
Qed.

(** One value adds one to the bin whose interval holds it, and to no
    other. *)
Lemma count_value_linspace (lo hi : R) (n : nat) (counts : list R) (v : R) :
  lo <= hi -> length counts = n ->
  exists counts' : list R,
    count_value (np_linspace lo hi n) counts v (seq 0 n) = Ret counts' /\
    length counts' = n /\
    (forall j, (j < n)%nat ->
       nth j counts' 0
       = nth j counts 0
         + (if decide (in_bin lo ((hi - lo) / INR n) n j v) then 1 else 0)) /\
    (lo <= v -> (1 <= n)%nat -> sum counts' = sum counts + 1).
Proof.
  intros Hle Hcn. pose proof (bin_width_nonneg lo hi n Hle) as Hw.
  set (w := (hi - lo) / INR n) in *.
  assert (Hbp : length (np_linspace lo hi n) = n).
  { unfold np_linspace. now rewrite length_map, length_seq. }
  assert (Hnth : forall j, (j < n)%nat -> nth j (np_linspace lo hi n) 0 = lo + INR j * w).
  { intros j Hj. now apply nth_np_linspace. }
  destruct (count_value_scan (np_linspace lo hi n) counts v n Hbp Hcn n)
    as [(j & Hj & Hjle & Hab & Hrun)|[Hall Hrun]].
  - lia.
  - intros idx Hidx. lia.
  - rewrite Nat.sub_diag in Hrun. rewrite Hnth in Hjle by exact Hj.
    exists (<[j := nth j counts 0 + 1]> counts).
    split; [exact Hrun|]. split; [now rewrite length_insert|]. split.
    + intros j' Hj'. rewrite nth_insert by lia.
      destruct (decide (j' = j)) as [->|Hne].
      * destruct (decide (in_bin lo w n j v)) as [_|Hout]; [reflexivity|].
        exfalso. apply Hout. split; [exact Hjle|].
        destruct (Nat.eq_dec (S j) n) as [Heq|Hneq]; [now left|right].
        rewrite <- Hnth by lia. apply Hab. lia.
      * destruct (decide (in_bin lo w n j' v)) as [[Hin1 Hin2]|_]; [|lra].
        exfalso. destruct (lt_dec j j') as [Hgt|Hngt].
        -- specialize (Hab j' ltac:(lia)). rewrite Hnth in Hab by lia. lra.
        -- destruct Hin2 as [Hlast|Hin2]; [lia|].
           assert (Hmono : INR (S j') <= INR j) by (apply le_INR; lia).
           nra.
    + intros _ _. rewrite (sum_insert counts j (nth j counts 0)).
      * lra.
      * apply nth_lookup_lt. lia.
  - rewrite Nat.sub_diag in Hrun. exists counts.
    split; [exact Hrun|]. split; [exact Hcn|]. split.
    + intros j' Hj'.
      destruct (decide (in_bin lo w n j' v)) as [[Hin1 _]|_]; [|lra].
      specialize (Hall j' Hj'). rewrite Hnth in Hall by exact Hj'. lra.
    + intros Hv Hn. specialize (Hall 0%nat ltac:(lia)).
      rewrite Hnth in Hall by lia. simpl in Hall. lra.
Qed.

Lemma length_np_linspace (lo hi : R) (n : nat) : length (np_linspace lo hi n) = n.
Proof. unfold np_linspace. now rewrite length_map, length_seq. Qed.

(** The whole array: each bin gains the number of values in its interval. *)
Lemma count_all_linspace (lo hi : R) (n : nat) (array : list R) :
  lo <= hi ->
  forall counts : list R,
    length counts = n ->
    exists counts' : list R,
      count_all (np_linspace lo hi n) counts array = Ret counts' /\
      length counts' = n /\
      (forall j, (j < n)%nat ->
         nth j counts' 0
         = nth j counts 0
           + INR (length (filter (in_bin lo ((hi - lo) / INR n) n j) array))) /\
      (Forall (fun v => lo <= v) array -> (1 <= n)%nat ->
       sum counts' = sum counts + INR (length array)).
Proof.
  intros Hle. induction array as [|v rest IH]; intros counts Hcn.
  - exists counts. split; [reflexivity|]. split; [exact Hcn|]. split.
    + intros j Hj. simpl. lra.
    + intros _ _. simpl. lra.
  - destruct (count_value_linspace lo hi n counts v Hle Hcn)
      as (c1 & Hrun1 & Hlen1 & Hpt1 & Hsum1).
    destruct (IH c1 Hlen1) as (c2 & Hrun2 & Hlen2 & Hpt2 & Hsum2).
    exists c2. split.
    { simpl count_all. rewrite length_np_linspace, Hrun1, bind_Ret. exact Hrun2. }
    split; [exact Hlen2|]. split.
    + intros j Hj. rewrite (Hpt2 j Hj), (Hpt1 j Hj), filter_cons.
      destruct (decide (in_bin lo ((hi - lo) / INR n) n j v)) as [Hin|Hout].
      * rewrite length_cons, S_INR. lra.
      * lra.
    + intros Hall Hn. inversion Hall as [|? ? Hv Hrest]; subst.
      rewrite (Hsum2 Hrest Hn), (Hsum1 Hv Hn).
      change (length (v :: rest)) with (S (length rest)). rewrite S_INR. lra.
Qed.

Lemma nth_np_zeros (n j : nat) : nth j (np_zeros n) 0 = 0.
Proof.
  unfold np_zeros. rewrite nth_lookup.
  destruct (replicate n 0 !! j) as [x|] eqn:E; [|reflexivity].
  apply lookup_replicate in E as [-> _]. reflexivity.
Qed.

Lemma create_bins_spec (array : list R) (n : nat) :
  array <> [] ->
  exists (lo hi : R) (counts : list R),
    py_min array = Ret lo /\ py_max array = Ret hi /\ lo <= hi /\
    Forall (fun v => lo <= v <= hi) array /\
    create_bins array n = Ret (np_linspace lo hi n, counts) /\
    length counts = n /\
    (forall j, (j < n)%nat ->
       nth j counts 0
       = INR (length (filter (in_bin lo ((hi - lo) / INR n) n j) array))) /\
    ((1 <= n)%nat -> sum counts = INR (length array)).
Proof.
  intros Hne. destruct array as [|x rest]; [contradiction|].
  set (array := x :: rest) in *.
  set (lo := fold_left Rmin rest x). set (hi := fold_left Rmax rest x).
  assert (Hlo : py_min array = Ret lo) by reflexivity.
  assert (Hhi : py_max array = Ret hi) by reflexivity.
  destruct (py_min_max_bounds array lo hi Hlo Hhi) as [Hle Hall].
  destruct (count_all_linspace lo hi n array Hle (np_zeros n))
    as (counts & Hrun & Hlen & Hpt & Hsum).
  { unfold np_zeros. apply length_replicate. }
  exists lo, hi, counts.
  split; [exact Hlo|]. split; [exact Hhi|]. split; [exact Hle|].
  split; [exact Hall|]. split.
  { unfold create_bins. rewrite Hlo, bind_Ret, Hhi, bind_Ret, Hrun, bind_Ret.
    reflexivity. }
  split; [exact Hlen|]. split.
  - intros j Hj. rewrite (Hpt j Hj), nth_np_zeros. lra.
  - intros Hn. rewrite Hsum.
    + unfold np_zeros. rewrite sum_replicate_0. lra.
    + eapply Forall_impl; [exact Hall|]. simpl. intros v Hv. lra.
    + exact Hn.
Qed.

(** X1: [create_bins] fails exactly on an empty array, with the [ValueError]
    of [min]; on any other array it returns [nbbins] breakpoints and
    [nbbins] counts. *)
Theorem create_bins_fails_iff_empty (array : list R) (nbbins : nat) :
  (array = [] -> create_bins array nbbins = Raise ValueError) /\
  (array <> [] ->
   exists breakpoints counts : list R,
     create_bins array nbbins = Ret (breakpoints, counts) /\
     length breakpoints = nbbins /\ length counts = nbbins).
Proof.
  split.
  - intros ->. reflexivity.
  - intros Hne.
    destruct (create_bins_spec array nbbins Hne)
      as (lo & hi & counts & _ & _ & _ & _ & Hrun & Hlen & _).
    exists (np_linspace lo hi nbbins), counts.
    split; [exact Hrun|]. split; [apply length_np_linspace|exact Hlen].
Qed.

Lemma create_bins_fails_iff_empty_witness :
  exists breakpoints counts : list R,
    create_bins [3; 1; 2] 2 = Ret (breakpoints, counts) /\
    length breakpoints = 2%nat /\ length counts = 2%nat.
Proof.
  apply (create_bins_fails_iff_empty [3; 1; 2] 2). discriminate.
Defined.

(** X2: with at least one bin every value of a non-empty array is counted
    exactly once: the counts add up to the number of values. *)
Theorem create_bins_counts_every_value (array : list R) (nbbins : nat) :
  array <> [] -> (1 <= nbbins)%nat ->
  exists breakpoints counts : list R,
    create_bins array nbbins = Ret (breakpoints, counts) /\
    sum counts = INR (length array).
Proof.
  intros Hne Hn.
  destruct (create_bins_spec array nbbins Hne)
    as (lo & hi & counts & _ & _ & _ & _ & Hrun & _ & _ & Hsum).
  exists (np_linspace lo hi nbbins), counts. split; [exact Hrun|]. now apply Hsum.
Qed.

Lemma create_bins_counts_every_value_witness :
  [3; 1; 2] <> [] /\ (1 <= 2)%nat /\
  exists breakpoints counts : list R,
    create_bins [3; 1; 2] 2 = Ret (breakpoints, counts) /\
    sum counts = INR (length [3; 1; 2]).
Proof.
  split; [discriminate|]. split; [lia|].
  apply (create_bins_counts_every_value [3; 1; 2] 2); [discriminate|lia].
Defined.

(** X3: the result of [create_bins] is the histogram of the array over
    [nbbins] intervals of equal width that start at the minimum: bin [j]
    starts at [min + j * (max - min) / nbbins] and counts the values from
    its start up to, and excluding, the start of the next bin; the last bin
    has no upper end, so it holds the maximum. *)
Theorem create_bins_is_histogram
        (array : list R) (nbbins : nat) (lo hi : R)
        (breakpoints counts : list R) (j : nat) :
  py_min array = Ret lo -> py_max array = Ret hi ->
  create_bins array nbbins = Ret (breakpoints, counts) ->
  (j < nbbins)%nat ->
  breakpoints !! j = Some (lo + INR j * ((hi - lo) / INR nbbins)) /\
  counts !! j
  = Some (INR (length (filter (in_bin lo ((hi - lo) / INR nbbins) nbbins j) array))).
Proof.
  intros Hlo Hhi Hrun Hj.
  assert (Hne : array <> []) by (intros ->; discriminate).
  destruct (create_bins_spec array nbbins Hne)
    as (lo' & hi' & counts' & Hlo' & Hhi' & _ & _ & Hrun' & Hlen & Hpt & _).
  rewrite Hlo in Hlo'. rewrite Hhi in Hhi'.
  apply Ret_inj in Hlo'. apply Ret_inj in Hhi'. subst lo' hi'.
  rewrite Hrun in Hrun'. apply Ret_inj in Hrun'.
  injection Hrun' as -> ->. split.
  - rewrite nth_lookup_lt by (rewrite length_np_linspace; exact Hj).
    f_equal. now apply nth_np_linspace.
  - rewrite nth_lookup_lt by lia. f_equal. now apply Hpt.
Qed.

Ltac bin_yes :=
  unfold in_bin; simpl; split; [lra|first [left; lia|right; lra]].
Ltac bin_no :=
  unfold in_bin; simpl; intros [? [?|?]]; first [lia|lra].
Ltac bin_filter :=
  rewrite ?filter_cons, ?filter_nil;
  repeat first [rewrite decide_True by bin_yes|rewrite decide_False by bin_no].

Example create_bins_3_1_2 :
  create_bins [3; 1; 2] 2 = Ret ([1; 2], [1; 2]).
Proof.
  assert (Hlo : py_min [3; 1; 2] = Ret 1).
  { simpl. f_equal. rewrite (Rmin_right 3 1) by lra. apply Rmin_left. lra. }
  assert (Hhi : py_max [3; 1; 2] = Ret 3).
  { simpl. f_equal. rewrite (Rmax_left 3 1) by lra. apply Rmax_left. lra. }
  assert (Hne : [3; 1; 2] <> []) by discriminate.
  destruct (create_bins_spec [3; 1; 2] 2 Hne)
    as (lo & hi & counts & Hlo' & Hhi' & _ & _ & Hrun & Hlen & Hpt & _).
  rewrite Hlo in Hlo'. rewrite Hhi in Hhi'.
  apply Ret_inj in Hlo'. apply Ret_inj in Hhi'. subst lo hi.
  rewrite Hrun. f_equal. f_equal.
  - unfold np_linspace. simpl. f_equal; [lra|f_equal; lra].
  - destruct counts as [|c0 [|c1 [|c2 counts]]]; try discriminate.
    pose proof (Hpt 0%nat ltac:(lia)) as H0.
    pose proof (Hpt 1%nat ltac:(lia)) as H1. simpl nth in H0, H1.
    rewrite H0, H1. bin_filter. reflexivity.
Qed.

Lemma create_bins_is_histogram_witness :
  [1; 2] !! 1%nat = Some (1 + INR 1 * ((3 - 1) / INR 2)) /\
  [1; 2] !! 1%nat
  = Some (INR (length (filter (in_bin 1 ((3 - 1) / INR 2) 2 1) [3; 1; 2]))).
Proof.
  apply (create_bins_is_histogram [3; 1; 2] 2 1 3 [1; 2] [1; 2] 1).
  - simpl. f_equal. rewrite (Rmin_right 3 1) by lra. apply Rmin_left. lra.
  - simpl. f_equal. rewrite (Rmax_left 3 1) by lra. apply Rmax_left. lra.
  - exact create_bins_3_1_2.
  - lia.
Defined.

(** X4: the bin probabilities loaded into the circuit form a probability
    distribution: for non-empty data there are eight of them, each in
    [0, 1], and they sum to 1.  [growth_probs] is the same computation. *)
Theorem price_probs_is_distribution (hki_2020 : list R) :
  hki_2020 <> [] ->
  exists price_probs_list : list R,
    price_probs hki_2020 = Ret price_probs_list /\
    growth_probs hki_2020 = Ret price_probs_list /\
    length price_probs_list = 8%nat /\
    Forall (fun prob => 0 <= prob <= 1) price_probs_list /\
    sum price_probs_list = 1.
Proof.
  intros Hne.
  destruct (create_bins_spec hki_2020 8 Hne)
    as (lo & hi & counts & _ & _ & _ & _ & Hrun & Hlen & Hpt & Hsum).
  specialize (Hsum ltac:(lia)).
  assert (Hpos : 0 < sum counts).
  { rewrite Hsum. apply lt_0_INR. destruct hki_2020; [contradiction|simpl; lia]. }
  exists (map (fun freq => freq / sum counts) counts).
  split; [unfold price_probs; now rewrite Hrun|].
  split; [unfold growth_probs; now rewrite Hrun|].
  split; [now rewrite length_map|]. split.
  - apply List.Forall_map. apply Forall_lookup. intros j freq Hj.
    apply lookup_nth in Hj as [Hjlt <-]. rewrite Hpt by lia.
    pose proof (length_filter (in_bin lo ((hi - lo) / INR 8) 8 j) hki_2020) as Hfl.
    apply le_INR in Hfl. rewrite <- Hsum in Hfl.
    pose proof (pos_INR (length (filter (in_bin lo ((hi - lo) / INR 8) 8 j) hki_2020))) as H0.
    split.
    + apply Rmult_le_pos; [exact H0|]. left. now apply Rinv_0_lt_compat.
    + apply Rmult_le_reg_r with (sum counts); [exact Hpos|].
      unfold Rdiv. rewrite Rmult_assoc, Rinv_l by lra. lra.
  - rewrite sum_map_div. field. lra.
Qed.

Lemma price_probs_is_distribution_witness :
  [5; 2; 9] <> [] /\
  exists price_probs_list : list R,
    price_probs [5; 2; 9] = Ret price_probs_list /\
    growth_probs [5; 2; 9] = Ret price_probs_list /\
    length price_probs_list = 8%nat /\
    Forall (fun prob => 0 <= prob <= 1) price_probs_list /\
    sum price_probs_list = 1.
Proof.
  split; [discriminate|].
  apply (price_probs_is_distribution [5; 2; 9]). discriminate.
Defined.

(** ** The price function, its scaling and the way back *)

(** X5: [scaled_mapping] sends the corner [(0, 0)] to 0, the corner [(7, 7)]
    to 1, and every pair of bin indices in between into [0, 1]. *)
Theorem scaled_mapping_unit_range (growth_var price_var : R) :
  0 <= growth_var <= 7 -> 0 <= price_var <= 7 ->
  scaled_mapping 0 0 = 0 /\
  scaled_mapping 7 7 = 1 /\
  0 <= scaled_mapping growth_var price_var <= 1.
Proof.
  intros Hg Hp. unfold scaled_mapping, price_mapping.
  split; [|split; [|split]].
  - field_simplify; lra.
  - field; lra.
  - apply Rmult_le_pos; [lra|]. left. apply Rinv_0_lt_compat. lra.
  - apply Rmult_le_reg_r
      with (1817.1710025 + 284.12916 * 7 + 826.066125 * 7
            - (1817.1710025 + 284.12916 * 0 + 826.066125 * 0)); [lra|].
    unfold Rdiv. rewrite Rmult_assoc, Rinv_l by lra. lra.
Qed.

Lemma scaled_mapping_unit_range_witness :
  0 <= 3 <= 7 /\ 0 <= 5 <= 7 /\
  scaled_mapping 0 0 = 0 /\
  scaled_mapping 7 7 = 1 /\
  0 <= scaled_mapping 3 5 <= 1.
Proof.
  split; [lra|]. split; [lra|].
  apply (scaled_mapping_unit_range 3 5); lra.
Defined.

(** X6: [ExpectedFx], run with [f_min = price_mapping(0,0)] and
    [f_max = price_mapping(7,7)] as the notebook sets them, undoes the
    scaling: from the value [c * (s - 1/2) + 1/2] that the objective
    encodes for the scaled price [s] it returns the price itself. *)
Theorem ExpectedFx_recovers_price (c growth_var price_var : R) :
  c <> 0 ->
  ExpectedFx c (price_mapping 0 0) (price_mapping 7 7)
             (c * (scaled_mapping growth_var price_var - 1 / 2) + 1 / 2)
  = Ret (price_mapping growth_var price_var).
Proof.
  intros Hc. rewrite ExpectedFx_nonzero by exact Hc. do 2 f_equal.
  unfold scaled_mapping, price_mapping. field. split; lra.
Qed.

Lemma ExpectedFx_recovers_price_witness :
  ExpectedFx (1 / 2) (price_mapping 0 0) (price_mapping 7 7)
             (1 / 2 * (scaled_mapping 2 6 - 1 / 2) + 1 / 2)
  = Ret (price_mapping 2 6).
Proof. apply (ExpectedFx_recovers_price (1 / 2) 2 6). lra. Defined.

(** X7: for [c > 0] and [f_min < f_max] the map [ExpectedFx] never fails, is
    strictly increasing, and its value lies between [f_min] and [f_max]
    exactly when the estimate lies within [c/2] of 1/2. *)
Theorem ExpectedFx_increasing_and_window (c f_min f_max a b : R) :
  0 < c -> f_min < f_max ->
  exists va vb : R,
    ExpectedFx c f_min f_max a = Ret va /\
    ExpectedFx c f_min f_max b = Ret vb /\
    (a < b <-> va < vb) /\
    (f_min <= va <= f_max <-> 1 / 2 - c / 2 <= a <= 1 / 2 + c / 2).
Proof.
  intros Hc Hf. assert (Hc0 : c <> 0) by lra.
  rewrite !ExpectedFx_nonzero by exact Hc0.
  eexists. eexists. split; [reflexivity|]. split; [reflexivity|].
  set (w := f_max - f_min). assert (Hw : 0 < w) by (unfold w; lra).
  set (ta := (a - 1 / 2) / c). set (tb := (b - 1 / 2) / c).
  assert (Ea : a = 1 / 2 + c * ta) by (unfold ta; field; exact Hc0).
  assert (Eb : b = 1 / 2 + c * tb) by (unfold tb; field; exact Hc0).
  split.
  - split; intros H.
    + assert (Ht : ta < tb) by nra. nra.
    + assert (Ht : ta < tb) by nra. nra.
  - split.
    + intros [H1 H2].
      assert (T1 : 0 <= ta + 1 / 2).
      { apply Rmult_le_reg_r with w; [exact Hw|]. lra. }
      assert (T2 : ta + 1 / 2 <= 1).
      { apply Rmult_le_reg_r with w; [exact Hw|]. unfold w in *. lra. }
      rewrite Ea. split.
      * apply Rplus_le_reg_l with (- (1 / 2) + c / 2).
        replace (- (1 / 2) + c / 2 + (1 / 2 - c / 2)) with (c * 0) by lra.
        replace (- (1 / 2) + c / 2 + (1 / 2 + c * ta)) with (c * (ta + 1 / 2)) by lra.
        apply Rmult_le_compat_l; lra.
      * apply Rplus_le_reg_l with (- (1 / 2) + c / 2).
        replace (- (1 / 2) + c / 2 + (1 / 2 + c / 2)) with (c * 1) by lra.
        replace (- (1 / 2) + c / 2 + (1 / 2 + c * ta)) with (c * (ta + 1 / 2)) by lra.
        apply Rmult_le_compat_l; lra.
    + intros [H1 H2].
      assert (T1 : 0 <= ta + 1 / 2).
      { apply Rmult_le_reg_l with c; [exact Hc|]. lra. }
      assert (T2 : ta + 1 / 2 <= 1).
      { apply Rmult_le_reg_l with c; [exact Hc|]. lra. }
      split.
      * pose proof (Rmult_le_pos _ _ T1 (Rlt_le _ _ Hw)). lra.
      * assert (Hm : (ta + 1 / 2) * w <= 1 * w)
          by (apply Rmult_le_compat_r; lra).
        unfold w in *. lra.
Qed.

Lemma ExpectedFx_increasing_and_window_witness :
  exists va vb : R,
    ExpectedFx (1 / 2) 0 1 (1 / 4) = Ret va /\
    ExpectedFx (1 / 2) 0 1 (3 / 4) = Ret vb /\
    (1 / 4 < 3 / 4 <-> va < vb) /\
    (0 <= va <= 1 <-> 1 / 2 - 1 / 2 / 2 <= 1 / 4 <= 1 / 2 + 1 / 2 / 2).
Proof.
  apply (ExpectedFx_increasing_and_window (1 / 2) 0 1 (1 / 4) (3 / 4)); lra.
Defined.

Lemma affine_value_lt (c w f a b : R) :
  0 < c -> 0 < w -> a < b ->
  ((a - 1 / 2) / c + 1 / 2) * w + f < ((b - 1 / 2) / c + 1 / 2) * w + f.
Proof.
  intros Hc Hw Hab.
  assert (Hq : (a - 1 / 2) / c < (b - 1 / 2) / c).
  { unfold Rdiv. apply Rmult_lt_compat_r; [now apply Rinv_0_lt_compat|lra]. }
  assert (Hm : ((a - 1 / 2) / c + 1 / 2) * w < ((b - 1 / 2) / c + 1 / 2) * w).
  { apply Rmult_lt_compat_r; lra. }
  lra.
Qed.

Lemma mapM_Ret {A B : Type} (f : A -> Py B) (g : A -> B) (l : list A) :
  (forall x, f x = Ret (g x)) -> mapM f l = Ret (map g l).
Proof.
  intros Hf. induction l as [|x l IH].
  - reflexivity.
  - rewrite mapM_Py_cons, Hf, bind_Ret, IH, bind_Ret. reflexivity.
Qed.

(** X8: the values that the read-out can produce, [possible_v], are as many as
    the grid points and strictly increasing along the grid, for [c > 0],
    [f_min < f_max] and [m >= 1]: distinct folded bins give distinct
    values, in the same order. *)
Theorem possible_v_strictly_increasing (c f_min f_max : R) (m : nat) :
  0 < c -> f_min < f_max -> (1 <= m)%nat ->
  exists values : list R,
    possible_v c f_min f_max m = Ret (map Finite values) /\
    length values = (2 ^ (m - 1) + 1)%nat /\
    (forall (i j : nat) (x y : R),
        (i < j)%nat -> values !! i = Some x -> values !! j = Some y -> x < y).
Proof.
  intros Hc Hf Hm. assert (Hc0 : c <> 0) by lra.
  set (g := fun a => ((a - 1 / 2) / c + 1 / 2) * (f_max - f_min) + f_min).
  exists (map g (a_tildes m)). split.
  { unfold possible_v. rewrite map_map. apply mapM_Ret. intros a.
    now apply ExpectedFx_nonzero. }
  split; [now rewrite length_map, length_a_tildes|].
  intros i j x y Hij Hx Hy.
  unfold a_tildes in Hx, Hy. rewrite map_map in Hx, Hy.
  apply (lookup_map_seq_Some (fun k => g (a_tilde m k))) in Hx as [Hi ->].
  apply (lookup_map_seq_Some (fun k => g (a_tilde m k))) in Hy as [Hj ->].
  assert (Hlt : a_tilde m i < a_tilde m j) by (apply a_tilde_lt; lia).
  unfold g. apply affine_value_lt; lra.
Qed.

Lemma possible_v_strictly_increasing_witness :
  0 < 1 / 2 /\ 0 < 1 /\ (1 <= 3)%nat /\
  exists values : list R,
    possible_v (1 / 2) 0 1 3 = Ret (map Finite values) /\
    length values = (2 ^ (3 - 1) + 1)%nat /\
    (forall (i j : nat) (x y : R),
        (i < j)%nat -> values !! i = Some x -> values !! j = Some y -> x < y).
Proof.
  split; [lra|]. split; [lra|]. split; [lia|].
  apply (possible_v_strictly_increasing (1 / 2) 0 1 3); [lra|lra|lia].
Defined.

(** ** Why the two states are folded *)

Lemma a_tilde_mirror_eq (m y : nat) :
  (y <= 2 ^ m)%nat -> a_tilde m (2 ^ m - y) = a_tilde m y.
Proof.
  intros Hy. unfold a_tilde. f_equal.
  rewrite minus_INR by exact Hy. rewrite pow_INR. simpl INR.
  replace (1 + 1) with 2 by lra.
  pose proof (pow2_R_pos m) as Hp.
  replace ((2 ^ m - INR y) * PI / 2 ^ m) with (PI - INR y * PI / 2 ^ m)
    by (field; lra).
  rewrite sin_minus, sin_PI, cos_PI. ring.
Qed.

(** X9: the two states that the loop adds into one bin, [y] and [2^m - y],
    have the same estimator value [sin^2(y*pi/2^m)]. *)
Theorem a_tilde_mirror (m y : nat) :
  (y <= 2 ^ m)%nat ->
  sin (INR (2 ^ m - y) * PI / 2 ^ m) ^ 2 = sin (INR y * PI / 2 ^ m) ^ 2 /\
  a_tilde m (2 ^ m - y) = a_tilde m y.
Proof.
  intros Hy. pose proof (a_tilde_mirror_eq m y Hy) as H. split; exact H.
Qed.

Lemma a_tilde_mirror_witness :
  (3 <= 2 ^ 3)%nat /\
  sin (INR (2 ^ 3 - 3) * PI / 2 ^ 3) ^ 2 = sin (INR 3 * PI / 2 ^ 3) ^ 2 /\
  a_tilde 3 (2 ^ 3 - 3) = a_tilde 3 3.
Proof.
  split; [simpl; lia|]. apply (a_tilde_mirror 3 3). simpl. lia.
Defined.

(** ** Fill and fold together *)

(** X10: dense fill followed by folding keeps the mass of the input: for
    [m >= 1] and pairwise distinct in-range states both stages succeed and
    the folded bins sum to the sum of the input probabilities. *)
Theorem fill_then_fold_keeps_mass (m : nat) (result : list Sample) :
  (1 <= m)%nat ->
  Forall (fun sample => (state_int sample < 2 ^ m)%nat) result ->
  NoDup (map state_int result) ->
  exists arr folded : list R,
    all_probs m result = Ret arr /\
    probs m arr = Ret folded /\
    sum folded = prob_sum result.
Proof.
  intros Hm Hall Hnd.
  destruct (all_probs_in_range m result Hall) as [arr [Harr Hlen]].
  exists arr, (folded_bins m arr).
  split; [exact Harr|]. split; [now apply probs_closed_form|].
  rewrite sum_folded_bins by assumption.
  unfold all_probs in Harr.
  rewrite (sum_fill_distinct _ _ _ Harr Hnd).
  - unfold np_zeros. rewrite sum_replicate_0. lra.
  - eapply Forall_impl; [exact Hall|]. intros sample Hs.
    now apply lookup_np_zeros.
Qed.

Lemma fill_then_fold_keeps_mass_witness :
  exists arr folded : list R,
    all_probs 2 [mkSample 1 (1 / 4); mkSample 3 (1 / 2)] = Ret arr /\
    probs 2 arr = Ret folded /\
    sum folded = prob_sum [mkSample 1 (1 / 4); mkSample 3 (1 / 2)].
Proof.
  apply (fill_then_fold_keeps_mass 2 [mkSample 1 (1 / 4); mkSample 3 (1 / 2)]).
  - lia.
  - repeat constructor; simpl; lia.
  - simpl. repeat constructor; rewrite ?elem_of_cons, ?elem_of_nil; lia.
Defined.

(** ** A histogram with a single outcome *)

Lemma nth_single_fill (n y i : nat) (p : R) :
  (y < n)%nat ->
  nth i (<[y:=p]> (np_zeros n)) 0 = if decide (i = y) then p else 0.
Proof.
  intros Hy. rewrite nth_insert by (unfold np_zeros; now rewrite length_replicate).
  now rewrite nth_np_zeros.
Qed.

Lemma folded_bins_nth (m : nat) (arr : list R) (j : nat) :
  (j <= 2 ^ (m - 1))%nat ->
  nth j (folded_bins m arr) 0
  = nth j arr 0
    + (if decide (1 <= j <= 2 ^ (m - 1) - 1)%nat then nth (2 ^ m - j) arr 0 else 0).
Proof.
  intros Hj. destruct (decide (1 <= j <= 2 ^ (m - 1) - 1)%nat) as [Hmid|Hout].
  - now rewrite folded_bins_nth_mid.
  - destruct (Nat.eq_dec j 0%nat) as [->|Hj0].
    + simpl. lra.
    + replace j with (2 ^ (m - 1))%nat by lia.
      rewrite folded_bins_nth_last. lra.
Qed.

(** X11: a result that holds one outcome [y] with a positive probability is
    decoded to [sin^2(y*pi/2^m)], whichever side of the mirror [y] lies
    on, and the folded bins carry exactly that probability. *)
Theorem postprocess_single_outcome (m y : nat) (p : R) :
  (1 <= m)%nat -> (y < 2 ^ m)%nat -> 0 < p ->
  exists d : Decoded,
    postprocess (Z.of_nat m) [mkSample y p] = Ret d /\
    dec_estimate d = sin (INR y * PI / 2 ^ m) ^ 2 /\
    sum (dec_probs d) = p.
Proof.
  intros Hm Hy Hp.
  assert (Hall : Forall (fun sample => (state_int sample < 2 ^ Z.to_nat (Z.of_nat m))%nat)
                        [mkSample y p]).
  { rewrite Nat2Z.id. repeat constructor. exact Hy. }
  destruct (postprocess_runs (Z.of_nat m) [mkSample y p] ltac:(lia) Hall)
    as (arr & k & Harr & Hk & Hrun).
  rewrite Nat2Z.id in *.
  assert (Earr : arr = <[y:=p]> (np_zeros (2 ^ m))).
  { unfold all_probs in Harr. rewrite fill_cons_lt in Harr
      by (unfold np_zeros; rewrite length_replicate; exact Hy).
    simpl in Harr. now apply Ret_inj in Harr. }
  assert (Hlen : length arr = (2 ^ m)%nat).
  { rewrite Earr, length_insert. unfold np_zeros. apply length_replicate. }
  pose proof (pow2_half m Hm) as Hh. pose proof (pow2_pos (m - 1)) as Hpos.
  set (h := (2 ^ (m - 1))%nat) in *.
  set (kk := if le_lt_dec y h then y else (2 ^ m - y)%nat).
  assert (Hkk : (kk <= h)%nat) by (unfold kk; destruct (le_lt_dec y h); lia).
  assert (Hval : forall j, (j <= h)%nat ->
            nth j (folded_bins m arr) 0 = if decide (j = kk) then p else 0).
  { intros j Hj. rewrite folded_bins_nth by exact Hj. fold h.
    rewrite Earr, !nth_single_fill by exact Hy. unfold kk.
    destruct (le_lt_dec y h);
      repeat match goal with
             | |- context [decide ?P] => destruct (decide P)
             end; try lia; lra. }
  pose proof (folded_bins_length m arr) as Hfl. fold h in Hfl.
  assert (Hne : folded_bins m arr <> []).
  { intros E. rewrite E in Hfl. simpl in Hfl. lia. }
  destruct (np_argmax_first_max _ Hne) as (k' & Hk' & Hk'l & Hge & _).
  rewrite Hk in Hk'. apply Ret_inj in Hk'. subst k'.
  assert (Ek : k = kk).
  { specialize (Hge kk ltac:(lia)).
    rewrite (Hval kk Hkk), (Hval k ltac:(lia)) in Hge.
    destruct (decide (kk = kk)) as [_|Hc]; [|contradiction].
    destruct (decide (k = kk)) as [E|_]; [exact E|lra]. }
  eexists. split; [exact Hrun|]. simpl. split.
  - rewrite Ek. unfold kk. destruct (le_lt_dec y h) as [_|Hgt].
    + reflexivity.
    + now rewrite a_tilde_mirror_eq by lia.
  - rewrite sum_folded_bins by assumption.
    rewrite Earr. rewrite (sum_insert _ _ 0).
    + unfold np_zeros. rewrite sum_replicate_0. lra.
    + now apply lookup_np_zeros.
Qed.

Lemma postprocess_single_outcome_witness :
  exists d : Decoded,
    postprocess (Z.of_nat 3) [mkSample 6 (3 / 4)] = Ret d /\
    dec_estimate d = sin (INR 6 * PI / 2 ^ 3) ^ 2 /\
    sum (dec_probs d) = 3 / 4.
Proof.
  apply (postprocess_single_outcome 3 6 (3 / 4)); [lia|simpl; lia|lra].
Defined.

(** ** The modular multiplication gate of the factoring notebook *)

Lemma u_generator_4 :
  u_generator 4
  = Ret [X_gate 0; X_gate 1; X_gate 2; X_gate 3;
         SWAP_gate 1 2; SWAP_gate 2 3; SWAP_gate 0 3].
Proof. reflexivity. Qed.

Lemma u_gates_4_action (y : nat) :
  (1 <= y <= 14)%nat ->
  exists reg : list bool,
    run_classical [X_gate 0; X_gate 1; X_gate 2; X_gate 3;
                   SWAP_gate 1 2; SWAP_gate 2 3; SWAP_gate 0 3]
                  (bits_of 4 y) = Some reg /\
    value_of reg = ((7 * y) mod 15)%nat.
Proof.
  intros Hy.
  do 15 (destruct y as [|y];
         [try (exfalso; lia); eexists; split; reflexivity|]).
  exfalso. lia.
Qed.

(** X13: on four wires, with wire 0 the least significant, the routine sends
    the basis state [y] to [7 * y mod 15], for every [y] from 1 to 14. *)
Theorem u_generator_multiplies_by_7_mod_15 (y : nat) :
  (1 <= y <= 14)%nat ->
  exists (gates : list Gate) (reg : list bool),
    u_generator 4 = Ret gates /\
    run_classical gates (bits_of 4 y) = Some reg /\
    value_of reg = ((7 * y) mod 15)%nat.
Proof.
  intros Hy. destruct (u_gates_4_action y Hy) as (reg & Hrun & Hval).
  eexists. exists reg. split; [exact u_generator_4|].
  split; [exact Hrun|exact Hval].
Qed.

Lemma u_generator_multiplies_by_7_mod_15_witness :
  exists (gates : list Gate) (reg : list bool),
    u_generator 4 = Ret gates /\
    run_classical gates (bits_of 4 4) = Some reg /\
    value_of reg = ((7 * 4) mod 15)%nat.
Proof. apply (u_generator_multiplies_by_7_mod_15 4). lia. Defined.

Lemma u_gates_4_four_times (y : nat) :
  (y < 16)%nat ->
  let gates := [X_gate 0; X_gate 1; X_gate 2; X_gate 3;
                SWAP_gate 1 2; SWAP_gate 2 3; SWAP_gate 0 3] in
  run_classical (gates ++ gates ++ gates ++ gates) (bits_of 4 y)
  = Some (bits_of 4 y).
Proof.
  intros Hy.
  do 16 (destruct y as [|y]; [reflexivity|]).
  exfalso. lia.
Qed.

(** X14: four applications of the routine bring every basis state of the four
    wires back to itself, while two applications take the start state 1
    to 4: on that state the gate has order four, which is why the circuit
    applies it under control of the first two qubits only. *)
Theorem u_generator_has_order_four (y : nat) :
  (y < 16)%nat ->
  exists gates : list Gate,
    u_generator 4 = Ret gates /\
    run_classical (gates ++ gates ++ gates ++ gates) (bits_of 4 y)
    = Some (bits_of 4 y) /\
    run_classical (gates ++ gates) (bits_of 4 1) = Some (bits_of 4 4).
Proof.
  intros Hy. eexists. split; [exact u_generator_4|].
  split; [now apply u_gates_4_four_times|reflexivity].
Qed.

Lemma u_generator_has_order_four_witness :
  exists gates : list Gate,
    u_generator 4 = Ret gates /\
    run_classical (gates ++ gates ++ gates ++ gates) (bits_of 4 7)
    = Some (bits_of 4 7) /\
    run_classical (gates ++ gates) (bits_of 4 1) = Some (bits_of 4 4).
Proof. apply (u_generator_has_order_four 7). lia. Defined.

Lemma wire_new_wires (n q : nat) : (q < n)%nat -> wire (new_wires n) q = Ret q.
Proof.
  intros Hq. unfold wire, new_wires. rewrite lookup_seq_lt by exact Hq.
  reflexivity.
Qed.

Lemma wire_new_wires_ge (n q : nat) :
  (n <= q)%nat -> wire (new_wires n) q = Raise IndexError.
Proof.
  intros Hq. unfold wire, new_wires. rewrite lookup_seq_ge by exact Hq.
  reflexivity.
Qed.

Lemma mapM_Ret_on {A B : Type} (f : A -> Py B) (g : A -> B) (l : list A) :
  Forall (fun x => f x = Ret (g x)) l -> mapM f l = Ret (map g l).
Proof.
  induction 1 as [|x l Hx Hl IH].
  - reflexivity.
  - rewrite mapM_Py_cons, Hx, bind_Ret, IH, bind_Ret. reflexivity.
Qed.

(** X15: the routine needs four wires: with fewer it fails on a wire index,
    with [n >= 4] it consists of the [n] flips followed by the three
    swaps. *)
Theorem u_generator_needs_four_wires (n : nat) :
  ((n < 4)%nat -> u_generator n = Raise IndexError) /\
  ((4 <= n)%nat ->
   u_generator n
   = Ret (map X_gate (seq 0 n)
          ++ [SWAP_gate 1 2; SWAP_gate 2 3; SWAP_gate 0 3])).
Proof.
  split.
  - intros Hn. do 4 (destruct n as [|n]; [reflexivity|]). lia.
  - intros Hn. unfold u_generator.
    rewrite (mapM_Ret_on _ X_gate).
    + rewrite bind_Ret. rewrite !wire_new_wires by lia. reflexivity.
    + apply Forall_forall. intros q Hq. apply elem_of_seq in Hq.
      rewrite wire_new_wires by lia. reflexivity.
Qed.

Lemma u_generator_needs_four_wires_witness :
  u_generator 5
  = Ret (map X_gate (seq 0 5)
         ++ [SWAP_gate 1 2; SWAP_gate 2 3; SWAP_gate 0 3]).
Proof. apply (u_generator_needs_four_wires 5). lia. Defined.

(** ** The register flip *)

Lemma swap_while_closed_form (n : nat) :
  forall (m h i : nat) (rout : list Gate),
    (2 * h <= m < 2 * h + 2)%nat -> (1 <= i)%nat -> (i + n = h + 1)%nat ->
    swap_while m i rout = rout ++ map (swap_step m) (seq i n).
Proof.
  induction n as [|n IH]; intros m h i rout Hh Hi Hn.
  - simp swap_while. destruct (decide (2 * i <= m)%nat) as [Hle|Hgt]; [lia|].
    simpl. now rewrite app_nil_r.
  - simp swap_while. destruct (decide (2 * i <= m)%nat) as [Hle|Hgt]; [|lia].
    simpl. rewrite (IH m h (S i)) by lia.
    rewrite <- app_assoc. reflexivity.
Qed.

Lemma run_classical_app (l1 l2 : list Gate) :
  forall reg : list bool,
    run_classical (l1 ++ l2) reg
    = match run_classical l1 reg with
      | Some reg' => run_classical l2 reg'
      | None => None
      end.
Proof.
  induction l1 as [|g l1 IH]; intros reg; simpl.
  - reflexivity.
  - destruct (apply_classical g reg); [apply IH|reflexivity].
Qed.

(** After the first [j] swaps the outer [j] positions on either side hold
    the mirrored bits and the middle is untouched. *)
Lemma run_swap_steps (m : nat) (reg : list bool) :
  length reg = m ->
  forall j : nat,
    (2 * j <= m)%nat ->
    exists r : list bool,
      run_classical (map (swap_step m) (seq 1 j)) reg = Some r /\
      length r = m /\
      forall t, (t < m)%nat ->
        r !! t = if decide (t < j \/ m - j <= t)%nat
                 then reg !! (m - 1 - t)%nat else reg !! t.
Proof.
  intros Hlen. induction j as [|j IH]; intros Hj.
  - exists reg. split; [reflexivity|]. split; [exact Hlen|].
    intros t Ht. destruct (decide (t < 0 \/ m - 0 <= t)%nat); [lia|reflexivity].
  - destruct (IH ltac:(lia)) as (r & Hrun & Hrl & Hr).
    rewrite seq_S, map_app, run_classical_app, Hrun. simpl.
    unfold swap_wires.
    replace (j - 0)%nat with j by lia.
    pose proof (Hr j ltac:(lia)) as Hrj.
    pose proof (Hr (m - S j)%nat ltac:(lia)) as Hrm.
    destruct (decide (j < j \/ m - j <= j)%nat) as [Hc|_]; [lia|].
    destruct (decide (m - S j < j \/ m - j <= m - S j)%nat) as [Hc|_]; [lia|].
    destruct (lookup_lt_is_Some_2 reg j ltac:(lia)) as [x Hx].
    destruct (lookup_lt_is_Some_2 reg (m - S j) ltac:(lia)) as [y Hy].
    rewrite Hx in Hrj. rewrite Hy in Hrm. rewrite Hrj, Hrm.
    eexists. split; [reflexivity|].
    split; [now rewrite !length_insert|].
    intros t Ht.
    destruct (Nat.eq_dec t j) as [->|Hnj].
    + rewrite list_lookup_insert_eq by (rewrite length_insert; lia).
      destruct (decide (j < S j \/ m - S j <= j)%nat) as [_|Hc]; [|lia].
      replace (m - 1 - j)%nat with (m - S j)%nat by lia. now rewrite Hy.
    + rewrite list_lookup_insert_ne by congruence.
      destruct (Nat.eq_dec t (m - S j)%nat) as [->|Hnm].
      * rewrite list_lookup_insert_eq by lia.
        destruct (decide (m - S j < S j \/ m - S j <= m - S j)%nat) as [_|Hc]; [|lia].
        replace (m - 1 - (m - S j))%nat with j by lia. now rewrite Hx.
      * rewrite list_lookup_insert_ne by congruence. rewrite (Hr t Ht).
        destruct (decide (t < j \/ m - j <= t)%nat),
          (decide (t < S j \/ m - S j <= t)%nat); try reflexivity; lia.
Qed.

(** X16: [swap_register(m)] reverses a register of [m] wires: the bit on wire
    [t] ends on wire [m - 1 - t]. *)
Theorem swap_register_reverses (reg : list bool) :
  run_classical (swap_register (length reg)) reg = Some (reverse reg).
Proof.
  set (m := length reg). set (h := (m / 2)%nat).
  assert (Hh : (2 * h <= m < 2 * h + 2)%nat).
  { unfold h. pose proof (Nat.div_mod_eq m 2) as E.
    pose proof (Nat.mod_upper_bound m 2 ltac:(lia)). lia. }
  unfold swap_register.
  rewrite (swap_while_closed_form h m h 1 []) by lia. simpl app.
  destruct (run_swap_steps m reg eq_refl h ltac:(lia)) as (r & Hrun & Hrl & Hr).
  rewrite Hrun. f_equal. apply list_eq. intros t.
  destruct (lt_dec t m) as [Ht|Ht].
  - rewrite (Hr t Ht), reverse_lookup by exact Ht. fold m.
    replace (m - S t)%nat with (m - 1 - t)%nat by lia.
    destruct (decide (t < h \/ m - h <= t)%nat) as [_|Hmid]; [reflexivity|].
    f_equal. lia.
  - rewrite !lookup_ge_None_2; [reflexivity| |].
    + rewrite length_reverse. fold m. lia.
    + lia.
Qed.

Lemma swap_register_reverses_example :
  run_classical (swap_register 5) [true; true; false; true; false]
  = Some [false; true; false; true; true].
Proof. reflexivity. Qed.

(** ** The angles of the controlled rotations (T-bill notebook) *)

Lemma py_mod_range (x y : R) : 0 < y -> 0 <= py_mod x y < y.
Proof.
  intros Hy. unfold py_mod.
  destruct (base_Int_part (x / y)) as [H1 H2].
  set (k := IZR (Int_part (x / y))) in *.
  assert (Hx : x = y * (x / y)) by (field; lra).
  split.
  - assert (y * k <= y * (x / y)) by (apply Rmult_le_compat_l; lra). lra.
  - assert (y * (x / y) < y * (k + 1)) by (apply Rmult_lt_compat_l; lra). lra.
Qed.

Lemma cos_sin_sub_period (x : R) (k : Z) :
  cos (x - 2 * IZR k * PI) = cos x /\ sin (x - 2 * IZR k * PI) = sin x.
Proof.
  destruct (Z_le_gt_dec 0 k) as [Hk|Hk].
  - rewrite <- (Z2Nat.id k Hk), <- INR_IZR_INZ.
    set (n := Z.to_nat k).
    rewrite <- (cos_period (x - 2 * INR n * PI) n).
    rewrite <- (sin_period (x - 2 * INR n * PI) n).
    split; f_equal; lra.
  - replace k with (- Z.of_nat (Z.to_nat (- k)))%Z by lia.
    rewrite opp_IZR, <- INR_IZR_INZ.
    set (n := Z.to_nat (- k)).
    replace (x - 2 * - INR n * PI) with (x + 2 * INR n * PI) by lra.
    split; [apply cos_period|apply sin_period].
Qed.

Lemma lookup_map_seq_any {A : Type} (f : nat -> A) (n i : nat) :
  (i < n)%nat -> map f (seq 0 n) !! i = Some (f i).
Proof.
  intros Hi. change (map f (seq 0 n)) with (f <$> seq 0 n).
  rewrite list_lookup_fmap, lookup_seq_lt by exact Hi. reflexivity.
Qed.

(** X17: Gate [i] of [Q_gates(m)] is a rotation of the last wire controlled by
    wire [i]; its angle is reduced into [0, 4*pi) and the reduction leaves
    the rotation unchanged: the half angle has the cosine and sine of
    [2^i * theta_p]. *)
Theorem Q_gates_angle_reduced (theta_p : R) (m i : nat) :
  (i < m)%nat ->
  exists angle : R,
    Q_gates theta_p m !! i = Some (CRY_gate angle i m) /\
    0 <= angle < 4 * PI /\
    cos (angle / 2) = cos (2 ^ i * theta_p) /\
    sin (angle / 2) = sin (2 ^ i * theta_p).
Proof.
  intros Hi. pose proof PI_RGT_0 as Hpi.
  exists (py_mod (2 ^ (i + 1) * theta_p) (4 * PI)). split.
  { unfold Q_gates.
    now rewrite (lookup_map_seq_any
                   (fun i => CRY_gate (py_mod (2 ^ (i + 1) * theta_p) (4 * PI)) i m)). }
  split; [apply py_mod_range; lra|].
  unfold py_mod.
  set (k := Int_part (2 ^ (i + 1) * theta_p / (4 * PI))).
  replace ((2 ^ (i + 1) * theta_p - 4 * PI * IZR k) / 2)
    with (2 ^ i * theta_p - 2 * IZR k * PI).
  - apply cos_sin_sub_period.
  - rewrite Nat.add_1_r. simpl. lra.
Qed.

Lemma Q_gates_angle_reduced_witness :
  exists angle : R,
    Q_gates 3 7 !! 6%nat = Some (CRY_gate angle 6 7) /\
    0 <= angle < 4 * PI /\
    cos (angle / 2) = cos (2 ^ 6 * 3) /\
    sin (angle / 2) = sin (2 ^ 6 * 3).
Proof. apply (Q_gates_angle_reduced 3 7 6). lia. Defined.

(** ** Powers of the Grover operator *)

Lemma Q_to_j_while_closed_form (n : nat) :
  forall (j i : nat) (rout : list QStep),
    (i + n = 2 ^ j)%nat ->
    Q_to_j_while j i rout = rout ++ concat (replicate n Q_block).
Proof.
  induction n as [|n IH]; intros j i rout Hn.
  - simp Q_to_j_while. destruct (decide (i < 2 ^ j)%nat) as [Hlt|Hge]; [lia|].
    simpl. now rewrite app_nil_r.
  - simp Q_to_j_while. destruct (decide (i < 2 ^ j)%nat) as [Hlt|Hge]; [|lia].
    simpl. rewrite (IH j (S i)) by lia.
    rewrite <- app_assoc. reflexivity.
Qed.

(** X18: [Q_to_j(j)] applies the four steps of the Grover operator [2^j] times
    over: raising [j] by one doubles the routine. *)
Theorem Q_to_j_doubles (j : nat) :
  Q_to_j j = concat (replicate (2 ^ j) Q_block) /\
  length (Q_to_j j) = (4 * 2 ^ j)%nat /\
  Q_to_j (S j) = Q_to_j j ++ Q_to_j j.
Proof.
  assert (E : forall j, Q_to_j j = concat (replicate (2 ^ j) Q_block)).
  { intros k. unfold Q_to_j. now rewrite (Q_to_j_while_closed_form (2 ^ k)) by lia. }
  split; [apply E|]. split.
  - rewrite E. generalize (2 ^ j)%nat. intros n.
    induction n as [|n IH]; simpl; [reflexivity|].
    rewrite IH. lia.
  - rewrite !E. rewrite <- concat_app, <- replicate_add.
    do 2 f_equal. rewrite Nat.pow_succ_r'. lia.
Qed.

Lemma Q_matrix_while_iter (Mat : Type) (matmul : Mat -> Mat -> Mat)
      (single_matrix : Mat) (n : nat) :
  forall (j i : nat) (Q : Mat),
    (i + n = 2 ^ j - 1)%nat ->
    Q_matrix_while Mat matmul single_matrix j i Q
    = Nat.iter n (matmul single_matrix) Q.
Proof.
  induction n as [|n IH]; intros j i Q Hn.
  - simp Q_matrix_while.
    destruct (decide (i < 2 ^ j - 1)%nat) as [Hlt|Hge]; [lia|]. reflexivity.
  - simp Q_matrix_while.
    destruct (decide (i < 2 ^ j - 1)%nat) as [Hlt|Hge]; [|lia].
    simpl. rewrite (IH j (S i)) by lia.
    clear. induction n as [|n IHn]; simpl; [reflexivity|]. now rewrite IHn.
Qed.

Lemma matrix_power_iter (Mat : Type) (matmul : Mat -> Mat -> Mat)
      (single_matrix : Mat) (n : nat) :
  Nat.iter n (matmul single_matrix) single_matrix
  = matrix_power Mat matmul single_matrix n.
Proof. induction n as [|n IH]; simpl; [reflexivity|]. now rewrite IH. Qed.

Lemma matrix_power_add (Mat : Type) (matmul : Mat -> Mat -> Mat)
      (single_matrix : Mat) :
  (forall a b c : Mat, matmul a (matmul b c) = matmul (matmul a b) c) ->
  forall a b : nat,
    matrix_power Mat matmul single_matrix (a + b + 1)
    = matmul (matrix_power Mat matmul single_matrix a)
             (matrix_power Mat matmul single_matrix b).
Proof.
  intros Hassoc a b. induction a as [|a IH].
  - rewrite Nat.add_0_l, Nat.add_1_r. reflexivity.
  - simpl. simpl in IH. rewrite IH. apply Hassoc.
Qed.

(** X19: [Q_matrix(j)] is the product of [2^j] copies of the single-step
    matrix; for an associative product, raising [j] by one squares it. *)
Theorem Q_matrix_squares (Mat : Type) (matmul : Mat -> Mat -> Mat)
        (single_matrix : Mat) (j : nat) :
  (forall a b c : Mat, matmul a (matmul b c) = matmul (matmul a b) c) ->
  Q_matrix Mat matmul single_matrix 0 = single_matrix /\
  Q_matrix Mat matmul single_matrix j
  = matrix_power Mat matmul single_matrix (2 ^ j - 1) /\
  Q_matrix Mat matmul single_matrix (S j)
  = matmul (Q_matrix Mat matmul single_matrix j)
           (Q_matrix Mat matmul single_matrix j).
Proof.
  intros Hassoc.
  assert (E : forall k, Q_matrix Mat matmul single_matrix k
                        = matrix_power Mat matmul single_matrix (2 ^ k - 1)).
  { intros k. unfold Q_matrix.
    rewrite (Q_matrix_while_iter Mat matmul single_matrix (2 ^ k - 1)) by lia.
    apply matrix_power_iter. }
  split; [now rewrite E|]. split; [apply E|].
  rewrite !E. rewrite <- (matrix_power_add Mat matmul single_matrix Hassoc).
  f_equal. pose proof (pow2_pos j). rewrite Nat.pow_succ_r'. lia.
Qed.

Lemma Q_matrix_squares_witness :
  Q_matrix Z Z.mul 3%Z 0 = 3%Z /\
  Q_matrix Z Z.mul 3%Z 2 = matrix_power Z Z.mul 3%Z (2 ^ 2 - 1) /\
  Q_matrix Z Z.mul 3%Z 3
  = (Q_matrix Z Z.mul 3%Z 2 * Q_matrix Z Z.mul 3%Z 2)%Z.
Proof.
  apply (Q_matrix_squares Z Z.mul 3%Z 2). intros a b c. apply Z.mul_assoc.
Defined.

(** ** Rotation matrices *)

Ltac matrix_entries :=
  repeat match goal with
         | |- (_ :: _) = (_ :: _) => apply f_equal2
         | |- [] = [] => reflexivity
         end.

(** X20: two [ry_matrix] rotations multiply to the rotation by the sum of their
    angles, and the transpose of a rotation undoes it. *)
Theorem ry_matrix_composes (a b : R) :
  np_matmul (ry_matrix a) (ry_matrix b) = ry_matrix (a + b) /\
  np_matmul (np_transpose (ry_matrix a)) (ry_matrix a) = np_identity 2.
Proof.
  split.
  - unfold ry_matrix. replace ((a + b) / 2) with (a / 2 + b / 2) by lra.
    rewrite cos_plus, sin_plus.
    set (ca := cos (a / 2)). set (sa := sin (a / 2)).
    set (cb := cos (b / 2)). set (sb := sin (b / 2)).
    cbv [np_matmul ncols column dot zip_with map seq length nth sum fold_left].
    matrix_entries; ring.
  - unfold ry_matrix. pose proof (sin2_cos2 (a / 2)) as H. unfold Rsqr in H.
    set (ca := cos (a / 2)) in *. set (sa := sin (a / 2)) in *.
    cbv [np_matmul np_transpose np_identity ncols column dot zip_with map seq
         length nth sum fold_left].
    repeat match goal with
           | |- context [decide ?P] => destruct (decide P); try lia
           end.
    matrix_entries; nra.
Qed.

(** ** The distribution gate *)

Lemma sqrt_two_thirds_range : -1 <= sqrt (2 / 3) <= 1.
Proof.
  split.
  - pose proof (sqrt_pos (2 / 3)). lra.
  - rewrite <- sqrt_1. apply sqrt_le_1_alt. lra.
Qed.

(** X21: the first column of [D_matrix], the state that the gate prepares from
    |00>, has the squares 1/2, 1/4, 1/6 and 1/12: the probabilities of the
    values 0, 1, 2 and 3, whose mean is 5/6. *)
Theorem D_matrix_loads_distribution :
  map (fun amp => amp ^ 2) (column 0 D_matrix) = [1 / 2; 1 / 4; 1 / 6; 1 / 12] /\
  dot [0; 1; 2; 3] (map (fun amp => amp ^ 2) (column 0 D_matrix)) = 5 / 6.
Proof.
  assert (E : map (fun amp => amp ^ 2) (column 0 D_matrix)
              = [1 / 2; 1 / 4; 1 / 6; 1 / 12]).
  { unfold D_matrix, ry_matrix.
    replace (2 * acos (sqrt (2 / 3)) / 2) with (acos (sqrt (2 / 3))) by lra.
    replace (PI / 3 / 2) with (PI / 6) by lra.
    rewrite cos_PI6, sin_PI6.
    rewrite (cos_acos _ sqrt_two_thirds_range), (sin_acos _ sqrt_two_thirds_range).
    unfold Rsqr. rewrite (sqrt_sqrt (2 / 3)) by lra.
    replace (1 - 2 / 3) with (1 / 3) by lra.
    pose proof (sqrt_sqrt 3 ltac:(lra)) as H3.
    pose proof (sqrt_sqrt (2 / 3) ltac:(lra)) as H23.
    pose proof (sqrt_sqrt (1 / 3) ltac:(lra)) as H13.
    set (s3 := sqrt 3) in *. set (q := sqrt (2 / 3)) in *.
    set (r := sqrt (1 / 3)) in *.
    cbv [np_kron column flat_map map app nth pow].
    matrix_entries; nra. }
  split; [exact E|]. rewrite E.
  cbv [dot zip_with sum fold_left]. lra.
Qed.

(** ** The objective gate *)

Lemma np_identity_2 : np_identity 2 = [[1; 0]; [0; 1]].
Proof.
  cbv [np_identity map seq].
  repeat match goal with
         | |- context [decide ?P] => destruct (decide P); try lia
         end.
  reflexivity.
Qed.

Lemma np_identity_4 :
  np_identity 4 = [[1; 0; 0; 0]; [0; 1; 0; 0]; [0; 0; 1; 0]; [0; 0; 0; 1]].
Proof.
  cbv [np_identity map seq].
  repeat match goal with
         | |- context [decide ?P] => destruct (decide P); try lia
         end.
  reflexivity.
Qed.

Lemma F_matrix_blocks (c : R) :
  F_matrix c
  = rot_blocks (objective_angle c 0) (objective_angle c 1)
               (objective_angle c 2) (objective_angle c 3).
Proof.
  unfold F_matrix, cry_0to2, cry_1to2, only_ry, ry_matrix, rot_blocks.
  rewrite np_identity_2, np_identity_4.
  set (A := - c + PI / 4). set (B := 2 * c / 3).
  replace (2 * A / 2) with A by lra.
  replace (2 * B / 2) with B by lra.
  replace (2 * (2 * B) / 2) with (2 * B) by lra.
  replace (objective_angle c 0) with A by (unfold objective_angle, A; lra).
  replace (objective_angle c 1) with (B + A)
    by (unfold objective_angle, A, B; lra).
  replace (objective_angle c 2) with (2 * B + A)
    by (unfold objective_angle, A, B; lra).
  replace (objective_angle c 3) with (2 * B + (B + A))
    by (unfold objective_angle, A, B; lra).
  repeat first [rewrite cos_plus|rewrite sin_plus].
  set (cA := cos A). set (sA := sin A). set (cB := cos B). set (sB := sin B).
  set (cC := cos (2 * B)). set (sC := sin (2 * B)).
  cbv [np_matmul np_kron ncols column dot zip_with map flat_map app seq length
       nth sum fold_left].
  matrix_entries; ring.
Qed.

(** X22: [F_matrix] is block diagonal: on the distribution state [i] (with
    [i = 2*i0 + i1], wire 0 first) it rotates the objective qubit by the
    angle [c * (2*i/3 - 1) + pi/4]. *)
Theorem F_matrix_rotates_by_objective (c : R) :
  F_matrix c
  = rot_blocks (c * (2 * 0 / 3 - 1) + PI / 4) (c * (2 * 1 / 3 - 1) + PI / 4)
               (c * (2 * 2 / 3 - 1) + PI / 4) (c * (2 * 3 / 3 - 1) + PI / 4).
Proof. exact (F_matrix_blocks c). Qed.

(** ** The state prepared by the A gate *)

(** X23: the first column of the matrix of [make_A_matrix], the state that the
    A gate prepares from |000>, carries on the entries with the objective
    qubit at 1 (the odd positions) the squares [p_i * sin^2(phi_i)], with
    [p_i] the loaded probabilities 1/2, 1/4, 1/6, 1/12 and [phi_i] the
    objective angles; all eight squares sum to 1. *)
Theorem make_A_matrix_objective_probability (c : R) :
  map (fun i => nth (2 * i + 1) (column 0 (make_A_matrix c)) 0 ^ 2) (seq 0 4)
  = [1 / 2 * sin (objective_angle c 0) ^ 2;
     1 / 4 * sin (objective_angle c 1) ^ 2;
     1 / 6 * sin (objective_angle c 2) ^ 2;
     1 / 12 * sin (objective_angle c 3) ^ 2] /\
  sum (map (fun amp => amp ^ 2) (column 0 (make_A_matrix c))) = 1.
Proof.
  unfold make_A_matrix. rewrite F_matrix_blocks, np_identity_2.
  unfold D_matrix, ry_matrix, rot_blocks.
  replace (2 * acos (sqrt (2 / 3)) / 2) with (acos (sqrt (2 / 3))) by lra.
  replace (PI / 3 / 2) with (PI / 6) by lra.
  rewrite cos_PI6, sin_PI6.
  rewrite (cos_acos _ sqrt_two_thirds_range), (sin_acos _ sqrt_two_thirds_range).
  unfold Rsqr. rewrite (sqrt_sqrt (2 / 3)) by lra.
  replace (1 - 2 / 3) with (1 / 3) by lra.
  pose proof (sqrt_sqrt 3 ltac:(lra)) as H3.
  pose proof (sqrt_sqrt (2 / 3) ltac:(lra)) as H23.
  pose proof (sqrt_sqrt (1 / 3) ltac:(lra)) as H13.
  pose proof (sin2_cos2 (objective_angle c 0)) as T0.
  pose proof (sin2_cos2 (objective_angle c 1)) as T1.
  pose proof (sin2_cos2 (objective_angle c 2)) as T2.
  pose proof (sin2_cos2 (objective_angle c 3)) as T3.
  unfold Rsqr in T0, T1, T2, T3.
  set (s3 := sqrt 3) in *. set (q := sqrt (2 / 3)) in *.
  set (r := sqrt (1 / 3)) in *.
  set (c0 := cos (objective_angle c 0)) in *.
  set (s0 := sin (objective_angle c 0)) in *.
  set (c1 := cos (objective_angle c 1)) in *.
  set (s1 := sin (objective_angle c 1)) in *.
  set (c2 := cos (objective_angle c 2)) in *.
  set (s2 := sin (objective_angle c 2)) in *.
  set (c3 := cos (objective_angle c 3)) in *.
  set (s3' := sin (objective_angle c 3)) in *.
  cbv [np_matmul np_kron ncols column dot zip_with map flat_map app seq length
       nth sum fold_left pow Nat.mul Nat.add].
  split.
  - matrix_entries.
    + transitivity (s0 * s0 * (s3 * s3) * (q * q) / 4); [field|rewrite H3, H23; field].
    + transitivity (s1 * s1 * (s3 * s3) * (r * r) / 4); [field|rewrite H3, H13; field].
    + transitivity (s2 * s2 * (q * q) / 4); [field|rewrite H23; field].
    + transitivity (s3' * s3' * (r * r) / 4); [field|rewrite H13; field].
  - transitivity ((s0 * s0 + c0 * c0) * (s3 * s3) * (q * q) / 4
                  + (s1 * s1 + c1 * c1) * (s3 * s3) * (r * r) / 4
                  + (s2 * s2 + c2 * c2) * (q * q) / 4
                  + (s3' * s3' + c3 * c3) * (r * r) / 4); [field|].
    rewrite T0, T1, T2, T3, H3, H23, H13. field.
Qed.

(** ** The read-out of the expected-value notebook *)

(** X24: the read-out [3*((a-1/2)/c+1)/2] inverts the objective to first order:
    from the value [1/2 + (phi - pi/4)] of the angle [phi] assigned to
    [x] it returns [x].  For [c = 0] it raises nothing: the division is
    numpy's, and the value returned is [inf] for [a] above 1/2, [-inf]
    for [a] below 1/2 and [nan] for [a = 1/2]. *)
Theorem ExpectedValue_ExpectedFx_inverts_objective (c x a : R) :
  (c <> 0 ->
   ExpectedValue.ExpectedFx c (1 / 2 + (objective_angle c x - PI / 4)) = Ret x) /\
  (1 / 2 < a -> ExpectedValue.ExpectedFx 0 a = Ret (Inf false)) /\
  (a < 1 / 2 -> ExpectedValue.ExpectedFx 0 a = Ret (Inf true)) /\
  (a = 1 / 2 -> ExpectedValue.ExpectedFx 0 a = Ret NaN).
Proof.
  assert (H3 : 0 < 3) by lra. assert (H2 : 0 < 2) by lra.
  unfold ExpectedValue.ExpectedFx. cbn [f64_sub]. split.
  - intros Hc. rewrite f64_truediv_nonzero by exact Hc. cbn [f64_add f64_mul].
    rewrite f64_truediv_nonzero by lra.
    do 2 f_equal. unfold objective_angle. field. exact Hc.
  - repeat split; intros Ha.
    + rewrite f64_truediv_zero_pos by lra. cbn [f64_add].
      now rewrite (proj2 (f64_mul_Inf_pos false _ H3)), f64_truediv_Inf_pos.
    + rewrite f64_truediv_zero_neg by lra. cbn [f64_add].
      now rewrite (proj2 (f64_mul_Inf_pos true _ H3)), f64_truediv_Inf_pos.
    + rewrite f64_truediv_zero_zero by lra. reflexivity.
Qed.

Lemma ExpectedValue_ExpectedFx_inverts_objective_witness :
  ExpectedValue.ExpectedFx (1 / 2) (1 / 2 + (objective_angle (1 / 2) 2 - PI / 4))
  = Ret 2 /\
  ExpectedValue.ExpectedFx 0 1 = Ret (Inf false) /\
  ExpectedValue.ExpectedFx 0 0 = Ret (Inf true) /\
  ExpectedValue.ExpectedFx 0 (1 / 2) = Ret NaN.
Proof.
  split; [|split; [|split]].
  - apply (ExpectedValue_ExpectedFx_inverts_objective (1 / 2) 2 0). lra.
  - apply (ExpectedValue_ExpectedFx_inverts_objective 1 0 1). lra.
  - apply (ExpectedValue_ExpectedFx_inverts_objective 1 0 0). lra.
  - apply (ExpectedValue_ExpectedFx_inverts_objective 1 0 (1 / 2)). reflexivity.
Defined.

(** ** The noisy gates are channels *)

Lemma np_identity_8 :
  np_identity 8
  = [[1; 0; 0; 0; 0; 0; 0; 0]; [0; 1; 0; 0; 0; 0; 0; 0];
     [0; 0; 1; 0; 0; 0; 0; 0]; [0; 0; 0; 1; 0; 0; 0; 0];
     [0; 0; 0; 0; 1; 0; 0; 0]; [0; 0; 0; 0; 0; 1; 0; 0];
     [0; 0; 0; 0; 0; 0; 1; 0]; [0; 0; 0; 0; 0; 0; 0; 1]].
Proof.
  cbv [np_identity map seq].
  repeat match goal with
         | |- context [decide ?P] => destruct (decide P); try lia
         end.
  reflexivity.
Qed.

(** X25: for a fidelity between 0 and 1 the Kraus operators of the noisy X, H
    and C-SWAP gates satisfy the completeness relation: the sum of the
    [K^T K] is the identity, so each of these channels preserves the
    trace. *)
Theorem noisy_gates_are_trace_preserving (p : R) :
  0 <= p <= 1 ->
  kraus_sum 2 (noisy_X p) = np_identity 2 /\
  kraus_sum 2 (noisy_H p) = np_identity 2 /\
  kraus_sum 8 (noisy_C_SWAP p) = np_identity 8.
Proof.
  intros [Hp0 Hp1].
  pose proof (sqrt_sqrt p Hp0) as Hs.
  pose proof (sqrt_sqrt (1 - p) ltac:(lra)) as Ht.
  pose proof (sqrt_sqrt 2 ltac:(lra)) as H2.
  assert (Hr2 : sqrt 2 <> 0).
  { intros E. rewrite E in H2. lra. }
  unfold kraus_sum, noisy_X, noisy_H, noisy_C_SWAP.
  rewrite np_identity_2, np_identity_8.
  set (s := sqrt p) in *. set (t := sqrt (1 - p)) in *.
  set (r := sqrt 2) in *.
  split; [|split].
  - cbv [fold_left np_add np_matmul np_transpose np_scale ncols column dot
         zip_with map seq length nth sum].
    matrix_entries; nra.
  - cbv [fold_left np_add np_matmul np_transpose np_scale np_div_scalar ncols
         column dot zip_with map seq length nth sum].
    assert (Hh : s * 1 / r * (s * 1 / r) = p / 2).
    { transitivity (s * s / (r * r)); [field; exact Hr2|rewrite Hs, H2; reflexivity]. }
    assert (Hm : s * -1 / r * (s * -1 / r) = p / 2).
    { transitivity (s * s / (r * r)); [field; exact Hr2|rewrite Hs, H2; reflexivity]. }
    assert (Hx : s * 1 / r * (s * -1 / r) = - (p / 2)).
    { transitivity (- (s * s / (r * r))); [field; exact Hr2|rewrite Hs, H2; reflexivity]. }
    assert (Hy : s * -1 / r * (s * 1 / r) = - (p / 2)).
    { transitivity (- (s * s / (r * r))); [field; exact Hr2|rewrite Hs, H2; reflexivity]. }
    rewrite ?Hh, ?Hm, ?Hx, ?Hy.
    matrix_entries; nra.
  - cbv [fold_left np_add np_matmul np_transpose np_scale ncols column dot
         zip_with map seq length nth sum].
    matrix_entries; nra.
Qed.

Lemma noisy_gates_are_trace_preserving_witness :
  0 <= 0.95 <= 1 /\
  kraus_sum 2 (noisy_X 0.95) = np_identity 2 /\
  kraus_sum 2 (noisy_H 0.95) = np_identity 2 /\
  kraus_sum 8 (noisy_C_SWAP 0.95) = np_identity 8.
Proof.
  split; [lra|]. apply (noisy_gates_are_trace_preserving 0.95). lra.
Defined.

(** ** The noisy two-qubit gates *)

Ltac cmatrix_entries :=
  repeat match goal with
         | |- (_ :: _) = (_ :: _) => apply f_equal2
         | |- [] = [] => reflexivity
         | |- (_, _) = (_, _) => apply f_equal2
         end.

(** X26: for a fidelity [p] between 0 and 1 the Kraus operators of the noisy
    controlled-phase gate satisfy the completeness relation, while those of
    the noisy CNOT do not: their [K^dagger K] sum to the diagonal matrix
    with entries 1, 1, 1 + p, 1 + p, so that channel raises the trace
    whenever [p > 0]. *)
Theorem noisy_CNOT_is_not_trace_preserving (p theta : R) :
  0 <= p <= 1 ->
  Ckraus_sum 4 (noisy_C_PH p theta) = Cdiag [1; 1; 1; 1] /\
  Ckraus_sum 4 (noisy_CNOT p) = Cdiag [1; 1; 1 + p; 1 + p] /\
  (0 < p -> Ckraus_sum 4 (noisy_CNOT p) <> Cdiag [1; 1; 1; 1]).
Proof.
  intros [Hp0 Hp1].
  pose proof (sqrt_sqrt p Hp0) as Hs.
  pose proof (sqrt_sqrt (1 - p) ltac:(lra)) as Ht.
  pose proof (sin2_cos2 theta) as Htr. unfold Rsqr in Htr.
  assert (E : Ckraus_sum 4 (noisy_CNOT p) = Cdiag [1; 1; 1 + p; 1 + p]).
  { unfold Ckraus_sum, noisy_CNOT.
    set (s := sqrt p) in *. set (t := sqrt (1 - p)) in *.
    cbv [fold_left Cmat_add Cmatmul Cdagger Cscale Cdiag Ccolumn Cncols Csum
         Cadd Cmul Cconj RtoC Cre Cim fst snd zip_with map seq length nth
         replicate].
    repeat match goal with
           | |- context [decide ?P] => destruct (decide P); try lia
           end.
    cmatrix_entries; nra. }
  split; [|split; [exact E|]].
  - unfold Ckraus_sum, noisy_C_PH.
    set (s := sqrt p) in *. set (t := sqrt (1 - p)) in *.
    set (ct := cos theta) in *. set (st := sin theta) in *.
    cbv [fold_left Cmat_add Cmatmul Cdagger Cscale Cdiag Ccolumn Cncols Csum
         Cadd Cmul Cconj RtoC Cre Cim fst snd zip_with map seq length nth
         replicate].
    repeat match goal with
           | |- context [decide ?P] => destruct (decide P); try lia
           end.
    cmatrix_entries; nra.
  - intros Hp. rewrite E. intros Heq.
    assert (H22 : nth 2 (nth 2 (Cdiag [1; 1; 1 + p; 1 + p]) []) (RtoC 0)
                  = nth 2 (nth 2 (Cdiag [1; 1; 1; 1]) []) (RtoC 0))
      by now rewrite Heq.
    cbv [Cdiag map seq length nth RtoC] in H22.
    repeat match type of H22 with
           | context [decide ?P] => destruct (decide P); try lia
           end.
    injection H22 as H22. lra.
Qed.

Lemma noisy_CNOT_is_not_trace_preserving_witness :
  0 <= 0.95 <= 1 /\
  Ckraus_sum 4 (noisy_C_PH 0.95 (PI / 2)) = Cdiag [1; 1; 1; 1] /\
  Ckraus_sum 4 (noisy_CNOT 0.95) = Cdiag [1; 1; 1 + 0.95; 1 + 0.95] /\
  (0 < 0.95 -> Ckraus_sum 4 (noisy_CNOT 0.95) <> Cdiag [1; 1; 1; 1]).
Proof.
  split; [lra|].
  apply (noisy_CNOT_is_not_trace_preserving 0.95 (PI / 2)). lra.
Defined.

(** ** Renormalising the state vector *)

Lemma Cabs_pow2 (z : complex) : Cabs z ^ 2 = Cre z * Cre z + Cim z * Cim z.
Proof.
  unfold Cabs. simpl. rewrite Rmult_1_r. apply sqrt_sqrt. nra.
Qed.

Lemma mapM_option_cons {A B : Type} (f : A -> option B) (x : A) (l : list A) :
  mapM f (x :: l) = (y ← f x; k ← mapM f l; Some (y :: k)).
Proof. reflexivity. Qed.

Lemma mapM_np_cdiv (r : R) (psi : list complex) :
  r <> 0 ->
  mapM (fun amp => np_cdiv amp r) psi
  = Some (map (fun amp => (Cre amp / r, Cim amp / r)) psi).
Proof.
  intros Hr. induction psi as [|z psi IH].
  - reflexivity.
  - rewrite mapM_option_cons, IH. unfold np_cdiv.
    destruct (Req_dec_T r 0); [contradiction|]. reflexivity.
Qed.

Lemma statevector_sum_cons (z : complex) (psi : list complex) :
  statevector_sum (z :: psi) = Cabs z ^ 2 + statevector_sum psi.
Proof. unfold statevector_sum. simpl map. apply sum_cons. Qed.

Lemma statevector_sum_scaled (r : R) (psi : list complex) :
  r <> 0 ->
  statevector_sum (map (fun amp => (Cre amp / r, Cim amp / r)) psi)
  = statevector_sum psi / (r * r).
Proof.
  intros Hr. induction psi as [|z psi IH].
  - unfold statevector_sum. simpl. rewrite sum_nil. field. exact Hr.
  - change (map (fun amp => (Cre amp / r, Cim amp / r)) (z :: psi))
      with ((Cre z / r, Cim z / r)
            :: map (fun amp => (Cre amp / r, Cim amp / r)) psi).
    rewrite !statevector_sum_cons, IH, !Cabs_pow2. simpl. field. exact Hr.
Qed.

Lemma map_cdiv_one (psi : list complex) :
  map (fun amp => (Cre amp / 1, Cim amp / 1)) psi = psi.
Proof.
  induction psi as [|[x y] psi IH]; simpl; [reflexivity|].
  rewrite IH. f_equal. f_equal; lra.
Qed.

(** X27: when the squared moduli have a positive sum, the renormalised vector
    has the same length and unit norm, and renormalising it again returns
    it unchanged, so the repeated calls that rescale the shared list leave
    it as the first call made it.  When the sum is 0 and the vector is
    not empty, the division yields no number. *)
Theorem renormalize_unit_norm (statevector_psi : list complex) :
  (0 < statevector_sum statevector_psi ->
   exists psi : list complex,
     renormalize statevector_psi = Some psi /\
     length psi = length statevector_psi /\
     statevector_sum psi = 1 /\
     renormalize psi = Some psi) /\
  (statevector_sum statevector_psi = 0 -> statevector_psi <> [] ->
   renormalize statevector_psi = None).
Proof.
  split.
  - intros Hpos. set (S := statevector_sum statevector_psi) in *.
    pose proof (sqrt_lt_R0 S Hpos) as Hr.
    pose proof (sqrt_sqrt S ltac:(lra)) as Hrr.
    set (r := sqrt S) in *.
    exists (map (fun amp => (Cre amp / r, Cim amp / r)) statevector_psi).
    assert (Hnorm : statevector_sum
                      (map (fun amp => (Cre amp / r, Cim amp / r)) statevector_psi) = 1).
    { rewrite statevector_sum_scaled by lra. fold S. rewrite Hrr. field. lra. }
    split; [unfold renormalize; fold S; fold r; apply mapM_np_cdiv; lra|].
    split; [apply length_map|]. split; [exact Hnorm|].
    unfold renormalize. rewrite Hnorm, sqrt_1, mapM_np_cdiv by lra.
    f_equal. apply map_cdiv_one.
  - intros Hz Hne. destruct statevector_psi as [|z rest]; [contradiction|].
    unfold renormalize. rewrite mapM_option_cons, Hz, sqrt_0. unfold np_cdiv.
    destruct (Req_dec_T 0 0) as [_|H0]; [reflexivity|contradiction].
Qed.

Lemma renormalize_unit_norm_witness :
  exists psi : list complex,
    renormalize [(3, 0); (0, 4)] = Some psi /\
    length psi = length [(3, 0); (0, 4)] /\
    statevector_sum psi = 1 /\
    renormalize psi = Some psi.
Proof.
  apply (renormalize_unit_norm [(3, 0); (0, 4)]).
  rewrite !statevector_sum_cons, !Cabs_pow2. unfold statevector_sum. simpl.
  rewrite sum_nil. lra.
Defined.

(** ** Splitting the state vector *)

Lemma split_loop_closed_form (sv : list complex) (range_i : list nat) :
  Forall (fun i => (2 * i + 1 < length sv)%nat) range_i ->
  forall psi_0 psi_1 : list complex,
    split_loop sv range_i psi_0 psi_1
    = Ret (psi_0 ++ map (fun i => nth (2 * i) sv (RtoC 0)) range_i,
           psi_1 ++ map (fun i => nth (2 * i + 1) sv (RtoC 0)) range_i).
Proof.
  induction 1 as [|i rest Hi Hrest IH]; intros psi_0 psi_1.
  - simpl. now rewrite !app_nil_r.
  - cbn [split_loop]. unfold getitem_complex at 1 2.
    destruct (lookup_lt_is_Some_2 sv (2 * i) ltac:(lia)) as [x Hx].
    destruct (lookup_lt_is_Some_2 sv (2 * i + 1) ltac:(lia)) as [y Hy].
    rewrite Hx, Hy, !bind_Ret, IH, <- !app_assoc. cbn [map].
    rewrite (nth_lookup_Some _ _ (RtoC 0) _ Hx), (nth_lookup_Some _ _ (RtoC 0) _ Hy).
    reflexivity.
Qed.

Lemma statevector_sum_app (l1 l2 : list complex) :
  statevector_sum (l1 ++ l2) = statevector_sum l1 + statevector_sum l2.
Proof. unfold statevector_sum. now rewrite map_app, sum_app. Qed.

Lemma statevector_sum_even_odd (sv : list complex) (N : nat) :
  length sv = (2 * N)%nat ->
  statevector_sum sv
  = statevector_sum (map (fun i => nth (2 * i) sv (RtoC 0)) (seq 0 N))
    + statevector_sum (map (fun i => nth (2 * i + 1) sv (RtoC 0)) (seq 0 N)).
Proof.
  revert sv. induction N as [|N IH]; intros sv Hlen.
  - destruct sv; [|discriminate]. unfold statevector_sum. simpl.
    rewrite sum_nil. lra.
  - destruct (decide (sv = [])) as [->|Hne]; [discriminate|].
    assert (Hsplit : exists front x y, sv = front ++ [x; y] /\ length front = (2 * N)%nat).
    { exists (take (2 * N) sv).
      destruct (lookup_lt_is_Some_2 sv (2 * N) ltac:(lia)) as [x Hx].
      destruct (lookup_lt_is_Some_2 sv (2 * N + 1) ltac:(lia)) as [y Hy].
      exists x, y. split.
      - rewrite <- (take_drop (2 * N) sv) at 1. f_equal.
        apply list_eq. intros k. rewrite lookup_drop.
        destruct k as [|[|k]]; simpl.
        + now rewrite Nat.add_0_r.
        + exact Hy.
        + apply lookup_ge_None_2. lia.
      - rewrite length_take. lia. }
    destruct Hsplit as (front & x & y & -> & Hfl).
    rewrite seq_S, !map_app, !statevector_sum_app. cbn [map].
    rewrite (IH front Hfl).
    assert (Hmap0 : map (fun i => nth (2 * i) (front ++ [x; y]) (RtoC 0)) (seq 0 N)
                    = map (fun i => nth (2 * i) front (RtoC 0)) (seq 0 N)).
    { apply map_ext_in. intros i Hi. apply in_seq in Hi.
      apply app_nth1. lia. }
    assert (Hmap1 : map (fun i => nth (2 * i + 1) (front ++ [x; y]) (RtoC 0)) (seq 0 N)
                    = map (fun i => nth (2 * i + 1) front (RtoC 0)) (seq 0 N)).
    { apply map_ext_in. intros i Hi. apply in_seq in Hi.
      apply app_nth1. lia. }
    rewrite Hmap0, Hmap1.
    rewrite !app_nth2 by lia.
    replace (2 * (0 + N) - length front)%nat with 0%nat by lia.
    replace (2 * (0 + N) + 1 - length front)%nat with 1%nat by lia.
    cbn [nth]. rewrite !statevector_sum_cons.
    change (statevector_sum []) with 0. lra.
Qed.

(** X28: on a state vector of [2 * 2^n] entries the loop succeeds and splits
    it into the entries with the objective qubit at 0 and at 1, [2^n]
    each, whose squared moduli add up to those of the whole: for a
    normalised vector the probability [a] of the objective qubit being 1
    is 1 minus the squared norm of [psi_0].  A shorter vector makes the
    loop fail on an index. *)
Theorem split_statevector_partitions_norm (nb_dist_qbits : nat) (sv : list complex) :
  (length sv = (2 * 2 ^ nb_dist_qbits)%nat ->
   exists psi_0 psi_1 : list complex,
     split_statevector nb_dist_qbits sv = Ret (psi_0, psi_1) /\
     length psi_0 = (2 ^ nb_dist_qbits)%nat /\
     length psi_1 = (2 ^ nb_dist_qbits)%nat /\
     statevector_sum psi_0 + statevector_sum psi_1 = statevector_sum sv /\
     (statevector_sum sv = 1 -> statevector_sum psi_1 = 1 - statevector_sum psi_0)) /\
  ((length sv < 2 * 2 ^ nb_dist_qbits)%nat ->
   split_statevector nb_dist_qbits sv = Raise IndexError).
Proof.
  split.
  - intros Hlen. eexists. eexists. split.
    { unfold split_statevector. apply split_loop_closed_form.
      apply Forall_forall. intros i Hi. apply elem_of_seq in Hi. lia. }
    cbn [app]. split; [now rewrite length_map, length_seq|].
    split; [now rewrite length_map, length_seq|].
    pose proof (statevector_sum_even_odd sv (2 ^ nb_dist_qbits) Hlen) as E.
    split; [lra|]. intros H1. lra.
  - intros Hlt. unfold split_statevector.
    set (N := (2 ^ nb_dist_qbits)%nat) in *.
    assert (H : forall (range_i : list nat) psi_0 psi_1,
               Exists (fun i => (length sv <= 2 * i + 1)%nat) range_i ->
               split_loop sv range_i psi_0 psi_1 = Raise IndexError).
    { induction range_i as [|i rest IH]; intros psi_0 psi_1 Hex.
      - inversion Hex.
      - cbn [split_loop]. unfold getitem_complex at 1 2.
        destruct (sv !! (2 * i)%nat) as [x|] eqn:Hx; [|reflexivity].
        rewrite bind_Ret.
        destruct (sv !! (2 * i + 1)%nat) as [y|] eqn:Hy; [|reflexivity].
        rewrite bind_Ret. apply IH.
        apply lookup_lt_Some in Hy.
        inversion Hex as [? ? Hi|? ? Hr]; subst; [lia|exact Hr]. }
    apply H. apply Exists_exists. exists (N - 1)%nat. split.
    + apply elem_of_seq. pose proof (pow2_pos nb_dist_qbits). fold N in H0. lia.
    + pose proof (pow2_pos nb_dist_qbits). fold N in H0. lia.
Qed.

Lemma split_statevector_partitions_norm_witness :
  exists psi_0 psi_1 : list complex,
    split_statevector 1 [(1 / 2, 0); (0, 1 / 2); (1 / 2, 0); (1 / 2, 0)]
    = Ret (psi_0, psi_1) /\
    length psi_0 = (2 ^ 1)%nat /\
    length psi_1 = (2 ^ 1)%nat /\
    statevector_sum psi_0 + statevector_sum psi_1
    = statevector_sum [(1 / 2, 0); (0, 1 / 2); (1 / 2, 0); (1 / 2, 0)] /\
    (statevector_sum [(1 / 2, 0); (0, 1 / 2); (1 / 2, 0); (1 / 2, 0)] = 1 ->
     statevector_sum psi_1 = 1 - statevector_sum psi_0).
Proof.
  apply (split_statevector_partitions_norm
           1 [(1 / 2, 0); (0, 1 / 2); (1 / 2, 0); (1 / 2, 0)]).
  reflexivity.
Defined.

(** ** The rotation angle of the T-bill notebook *)

(** X29: for a probability [p] the angle [theta_p] is the one whose rotation
    puts the objective qubit at 1 with probability [p]: the half angle has
    squared sine [p] and squared cosine [1 - p]. *)
Theorem theta_p_encodes_probability (p : R) :
  0 <= p <= 1 ->
  sin (theta_p p / 2) ^ 2 = p /\ cos (theta_p p / 2) ^ 2 = 1 - p.
Proof.
  intros [Hp0 Hp1]. unfold theta_p.
  replace (2 * asin (sqrt p) / 2) with (asin (sqrt p)) by lra.
  assert (Hr : -1 <= sqrt p <= 1).
  { split.
    - pose proof (sqrt_pos p). lra.
    - rewrite <- sqrt_1. apply sqrt_le_1_alt. exact Hp1. }
  pose proof (sqrt_sqrt p Hp0) as Hs.
  pose proof (sin2_cos2 (asin (sqrt p))) as Ht. unfold Rsqr in Ht.
  rewrite (sin_asin _ Hr) in *. simpl. split; nra.
Qed.

Lemma theta_p_encodes_probability_witness :
  0 <= 0.3 <= 1 /\
  sin (theta_p 0.3 / 2) ^ 2 = 0.3 /\ cos (theta_p 0.3 / 2) ^ 2 = 1 - 0.3.
Proof.
  split; [lra|]. apply (theta_p_encodes_probability 0.3). lra.
Defined.

(** ** Normalised noisy probabilities *)

Lemma sum_nonneg (l : list R) : Forall (fun x => 0 <= x) l -> 0 <= sum l.
Proof.
  induction 1 as [|x l Hx Hl IH].
  - rewrite sum_nil. lra.
  - rewrite sum_cons. lra.
Qed.

Lemma le_sum_of_nonneg (l : list R) :
  Forall (fun x => 0 <= x) l -> Forall (fun x => x <= sum l) l.
Proof.
  induction 1 as [|x l Hx Hl IH].
  - constructor.
  - pose proof (sum_nonneg l Hl) as Hs. rewrite sum_cons. constructor; [lra|].
    eapply Forall_impl; [exact IH|]. simpl. intros y Hy. lra.
Qed.

(** X12: when the sampled probabilities are non-negative and not all zero, the
    normalised list is a probability distribution over the samples: one
    entry per sample, each between 0 and 1, in the proportions of the
    input. *)
Theorem noisy_probabilities_is_distribution (result : list Sample) :
  Forall (fun sample => 0 <= probability sample) result ->
  0 < prob_sum result ->
  exists normed : list R,
    noisy_probabilities result = Ret normed /\
    length normed = length result /\
    Forall (fun prob => 0 <= prob <= 1) normed /\
    (forall (i : nat) (sample : Sample) (prob : R),
        result !! i = Some sample -> normed !! i = Some prob ->
        prob * prob_sum result = probability sample).
Proof.
  intros Hnn Hpos. set (T := prob_sum result) in *.
  exists (map (fun sample => probability sample / T) result).
  split; [apply noisy_probabilities_nonzero; fold T; lra|].
  split; [apply length_map|]. split.
  - apply List.Forall_map.
    assert (Hp : Forall (fun x => 0 <= x) (map probability result))
      by now apply List.Forall_map.
    pose proof (le_sum_of_nonneg _ Hp) as Hle.
    apply List.Forall_map in Hle. fold (prob_sum result) in Hle. fold T in Hle.
    rewrite Forall_forall in *. intros sample Hin.
    specialize (Hnn sample Hin). specialize (Hle sample Hin). simpl in *.
    split.
    + apply Rmult_le_pos; [exact Hnn|]. left. now apply Rinv_0_lt_compat.
    + apply Rmult_le_reg_r with T; [exact Hpos|].
      unfold Rdiv. rewrite Rmult_assoc, Rinv_l by lra. lra.
  - intros i sample prob Hi Hn.
    change (map (fun sample => probability sample / T) result)
      with ((fun sample => probability sample / T) <$> result) in Hn.
    rewrite list_lookup_fmap, Hi in Hn. simpl in Hn.
    injection Hn as <-. field. lra.
Qed.

Lemma noisy_probabilities_is_distribution_witness :
  exists normed : list R,
    noisy_probabilities [mkSample 0 (1 / 4); mkSample 5 (1 / 2)] = Ret normed /\
    length normed = length [mkSample 0 (1 / 4); mkSample 5 (1 / 2)] /\
    Forall (fun prob => 0 <= prob <= 1) normed /\
    (forall (i : nat) (sample : Sample) (prob : R),
        [mkSample 0 (1 / 4); mkSample 5 (1 / 2)] !! i = Some sample ->
        normed !! i = Some prob ->
        prob * prob_sum [mkSample 0 (1 / 4); mkSample 5 (1 / 2)]
        = probability sample).
Proof.
  apply (noisy_probabilities_is_distribution
           [mkSample 0 (1 / 4); mkSample 5 (1 / 2)]).
  - repeat constructor; simpl; lra.
  - unfold prob_sum. simpl map. rewrite !sum_cons, sum_nil. lra.
Defined.
